(** * MCPClient: the per-server connection manager

    A shallow embedding of [MCPClient] (connect / disconnect / callTool /
    getInfo, the tool wrappers it builds) and of the validated
    configuration shapes, followed by the properties of its connection
    lifecycle.

    Asynchronous methods are embedded as trees of a small free monad
    [Prog]: synchronous reads and writes of the manager ([Get], [Put]),
    exceptions ([Throw]) and suspension points ([Await]).  JavaScript runs
    the code between two [await]s atomically, so a method is a sequence of
    atomic segments separated by suspension points. *)

From stdpp Require Import gmap strings list fin_maps.
From Stdlib Require Import ZArith.

Set Warnings "-register-all".

Open Scope string_scope.
Open Scope Z_scope.
Open Scope list_scope.

(** ** Values *)

(** A thrown JavaScript value: the [name] and [message] of an error
    object ([name] may be missing on values that are not [Error]s). *)
Record JsError := mkError {
  err_name : option string;
  err_message : string;
}.

(** [new Error(msg)] *)
Definition Error (msg : string) : JsError := mkError (Some "Error") msg.

(** The error thrown by a Zod schema's [parse]; the message stands for
    the issue that was found. *)
Definition ZodError (issue : string) : JsError := mkError (Some "ZodError") issue.

(** JSON-like values: tool inputs and the payload handed to
    [JSON.stringify]. *)
Inductive JsVal :=
| JUndefined
| JNull
| JBool (b : bool)
| JNum (z : Z)
| JStr (s : string)
| JArr (xs : list JsVal)
| JObj (fields : list (string * JsVal)).

(** ** Configuration shapes (app-types/mcp) *)

(** [MCPServerConfig = MCPSseConfig | MCPStdioConfig]: the union is probed
    by shape at run time, so the embedding keeps every field optional. *)
Record MCPServerConfig := {
  command : option string;
  args : option (list string);
  env : option (gmap string string);
  url : option string;
  headers : option (gmap string string);
}.

Record MCPStdioConfig := {
  stdio_command : string;
  stdio_args : option (list string);
  stdio_env : option (gmap string string);
}.

Record MCPSseConfig := {
  sse_url : string;
  sse_headers : option (gmap string string);
}.

(** [MCPStdioConfigZodSchema.parse]: [command] is a string of length at
    least one, [args] and [env] are optional. *)
Definition MCPStdioConfigZodSchema_parse (cfg : MCPServerConfig)
  : JsError + MCPStdioConfig :=
  match command cfg with
  | None => inl (ZodError "command: Required")
  | Some c =>
      if decide (c = "") then inl (ZodError "command: too small")
      else inr {| stdio_command := c; stdio_args := args cfg; stdio_env := env cfg |}
  end.

(** [MCPSseConfigZodSchema.parse]: [url] is a string that is a
    well-formed URL, [headers] is optional.  Well-formedness of a URL is
    the platform's ([isValidUrl]). *)
Definition MCPSseConfigZodSchema_parse (isValidUrl : string → bool)
    (cfg : MCPServerConfig) : JsError + MCPSseConfig :=
  match url cfg with
  | None => inl (ZodError "url: Required")
  | Some u =>
      if isValidUrl u then inr {| sse_url := u; sse_headers := headers cfg |}
      else inl (ZodError "url: Invalid url")
  end.

(** A JSON schema, as far as the wrapper builder looks into it. *)
Record JsonSchema := {
  schema_properties : option (gmap string JsVal);
  schema_additionalProperties : option bool;
  schema_rest : list (string * JsVal);
}.

(** A tool as reported by the remote server's [listTools]. *)
Record ToolDescriptor := {
  tool_name : string;
  tool_description : option string;
  tool_inputSchema : JsonSchema;
}.

Record MCPToolInfo := {
  ti_name : string;
  ti_description : option string;
  ti_inputSchema : JsonSchema;
}.

Inductive Status := connected | disconnected | loading.

Record ContentItem := {
  content_type : string;
  content_text : string;
}.

(** The result of a remote tool call; [isError] is optional. *)
Record CallToolResult := {
  content : list ContentItem;
  isError : option bool;
}.

(** ** Transports and client handles *)

Record StdioParams := {
  sp_command : string;
  sp_args : option (list string);
  sp_env : gmap string string;
  sp_cwd : string;
}.

Inductive Transport :=
| StdioClientTransport (p : StdioParams)
| SSEClientTransport (u : string) (hs : option (gmap string string)).

(** [new Client({name, version})]: a fresh object, identified by the
    order of its allocation. *)
Record Client := {
  client_id : nat;
  client_name : string;
  client_version : string;
}.

(** The AI SDK tool built for one remote tool.  [target] is the
    [_tool.name] captured by the [execute] closure. *)
Record Tool := {
  parameters : JsonSchema;
  description : option string;
  target : string;
}.

Record AbortSignal := {
  aborted : bool;
  reason : JsError;
}.

Record ToolExecutionOptions := {
  abortSignal : option AbortSignal;
}.

(** ** The two primitives of lib/utils *)

(** Modelled from the spec: the class [Locker] of lib/utils is not part
    of the sources.  "Operations: lock() (acquire, non-blocking),
    unlock() (release, idempotent-safe), wait() (suspend the calling
    operation until the lock is released, without acquiring it),
    isLocked (read-only probe)."  [wait] is the suspension point
    [LockerWait] below. *)
Record Locker := { isLocked : bool }.

Definition lock (l : Locker) : Locker := {| isLocked := true |}.
Definition unlock (l : Locker) : Locker := {| isLocked := false |}.

(** Modelled from the spec: [createDebounce] of lib/utils is not part of
    the sources.  "A single deferred action with a configurable delay.
    Scheduling cancels any previously pending action before arming a new
    one -- at most one pending disconnect per manager, never a queue."
    [pending] is the one slot (the delay in milliseconds of the armed
    action), [armed] counts how many times the scheduler was armed. *)
Record Debounce := {
  pending : option Z;
  armed : nat;
}.

Definition createDebounce : Debounce := {| pending := None; armed := 0 |}.

Definition debounce (d : Debounce) (waitFor : Z) : Debounce :=
  {| pending := Some waitFor; armed := S (armed d) |}.

(** Modelled from the spec: [isNull] of lib/utils is not part of the
    sources; it recognises "an unexpectedly empty/null response". *)
Definition isNull {A} (v : option A) : bool :=
  match v with None => true | Some _ => false end.

(** ** The manager *)

Record ClientOptions := {
  autoDisconnectSeconds : option Z;
}.

Record MCPClient := {
  client : option Client;
  error : option JsError;
  isConnected : bool;
  locker : Locker;
  toolInfo : list MCPToolInfo;
  tools : gmap string Tool;
  name : string;
  serverConfig : MCPServerConfig;
  options : ClientOptions;
  disconnectDebounce : Debounce;
}.

(** The constructor: [new MCPClient(name, serverConfig, options)]. *)
Definition createMCPClient (nm : string) (cfg : MCPServerConfig)
    (opts : ClientOptions) : MCPClient :=
  {| client := None; error := None; isConnected := false;
     locker := {| isLocked := false |};
     toolInfo := []; tools := ∅;
     name := nm; serverConfig := cfg; options := opts;
     disconnectDebounce := createDebounce |}.

Record MCPServerInfo := {
  info_name : string;
  info_config : MCPServerConfig;
  info_status : Status;
  info_error : option JsError;
  info_toolInfo : list MCPToolInfo;
}.

Definition getInfo (m : MCPClient) : MCPServerInfo :=
  {| info_name := name m;
     info_config := serverConfig m;
     info_status :=
       if isLocked (locker m) then loading
       else if isConnected m then connected
       else disconnected;
     info_error := error m;
     info_toolInfo := toolInfo m |}.

(** ** Suspension points and observable events *)

(** What an asynchronous method can suspend on: the locker's [wait], or
    a request to the remote server through a client handle. *)
Inductive Awaitable :=
| LockerWait
| ClientConnect (c : Client) (t : Transport)
| ClientListTools (c : Client)
| ClientCallTool (c : Client) (toolName : string) (arguments : JsVal)
| ClientClose (c : Client).

(** The value a suspension point resolves to.  A remote tool call may
    resolve to nothing ([None]: null or undefined). *)
Definition ResultOf (w : Awaitable) : Type :=
  match w with
  | LockerWait => unit
  | ClientConnect _ _ => unit
  | ClientListTools _ => list ToolDescriptor
  | ClientCallTool _ _ _ => option CallToolResult
  | ClientClose _ => unit
  end.

Inductive LogLevel := info | error_level.

Inductive LogArg :=
| LStr (s : string)
| LErr (e : JsError)
| LContent (c : list ContentItem).

(** Everything the manager does to the outside world, in order:
    constructing a transport, issuing a request through a handle (the
    handshake [ClientConnect] is where a subprocess transport is
    started), and logging. *)
Inductive Event :=
| EvNewTransport (t : Transport)
| EvRequest (w : Awaitable)
| EvLog (lvl : LogLevel) (msg : list LogArg).

Record World := {
  this : MCPClient;
  trace : list Event;
  clientCount : nat;
}.

(** ** The environment *)

(** What the sources take from elsewhere: constants and predicates of
    modules that are not part of the sources, the ambient process, and
    the answers of the outside world.  [settle w tr] is how the request
    [w] is settled when the events so far are [tr]: rejected with an
    error or resolved with a value. *)
Record Env := {
  IS_MCP_SERVER_SSE_ONLY : bool;
  isMaybeStdioConfig : MCPServerConfig → bool;
  isMaybeSseConfig : MCPServerConfig → bool;
  isValidUrl : string → bool;
  process_env : gmap string (option string);
  process_cwd : string;
  transportFails : Transport → option JsError;
  wrapperFails : ToolDescriptor → option JsError;
  settle : ∀ w : Awaitable, list Event → JsError + ResultOf w;
  errorToString : JsError → string;
  JSON_stringify : JsVal → string;
}.

(** ** Asynchronous programs *)

Inductive Prog (A : Type) : Type :=
| Ret (a : A)
| Throw (e : JsError)
| Get (k : World → Prog A)
| Put (w : World) (k : Prog A)
| Await (a : Awaitable) (k : JsError + ResultOf a → Prog A).

Arguments Ret {A} a.
Arguments Throw {A} e.
Arguments Get {A} k.
Arguments Put {A} w k.
Arguments Await {A} a k.

Fixpoint bind {A B} (m : Prog A) (f : A → Prog B) : Prog B :=
  match m with
  | Ret a => f a
  | Throw e => Throw e
  | Get k => Get (λ w, bind (k w) f)
  | Put w k => Put w (bind k f)
  | Await a k => Await a (λ r, bind (k r) f)
  end.

#[global] Instance Prog_ret : MRet Prog := @Ret.
#[global] Instance Prog_bind : MBind Prog := λ A B f m, bind m f.

(** [try { m } catch (e) { h e }] *)
Fixpoint try_catch {A} (m : Prog A) (h : JsError → Prog A) : Prog A :=
  match m with
  | Ret a => Ret a
  | Throw e => h e
  | Get k => Get (λ w, try_catch (k w) h)
  | Put w k => Put w (try_catch k h)
  | Await a k => Await a (λ r, try_catch (k r) h)
  end.

(** A synchronous expression that may throw. *)
Definition liftE {A} (r : JsError + A) : Prog A :=
  match r with inl e => Throw e | inr a => Ret a end.

(** Reading and updating [this]. *)
Definition gets {A} (f : MCPClient → A) : Prog A :=
  Get (λ w, Ret (f (this w))).

Definition upd (f : MCPClient → MCPClient) (w : World) : World :=
  {| this := f (this w); trace := trace w; clientCount := clientCount w |}.

Definition record (ev : Event) (w : World) : World :=
  {| this := this w; trace := trace w ++ [ev]; clientCount := clientCount w |}.

Definition modify (f : MCPClient → MCPClient) : Prog unit :=
  Get (λ w, Put (upd f w) (Ret tt)).

Definition emit (ev : Event) : Prog unit :=
  Get (λ w, Put (record ev w) (Ret tt)).

(** [this.log.info(...)], [this.log.error(...)] *)
Definition log (lvl : LogLevel) (msg : list LogArg) : Prog unit :=
  emit (EvLog lvl msg).

(** [await request]: the request is issued, the method suspends, and
    resumes with the value or with the rejection thrown. *)
Definition await (a : Awaitable) : Prog (ResultOf a) :=
  emit (EvRequest a);; Await a liftE.

(** [await this.locker.wait()] *)
Definition locker_wait : Prog unit := Await LockerWait (λ _, Ret tt).

(** Assignments to the fields of [this]. *)
Definition set_client (v : option Client) (m : MCPClient) : MCPClient :=
  {| client := v; error := error m; isConnected := isConnected m;
     locker := locker m; toolInfo := toolInfo m; tools := tools m;
     name := name m; serverConfig := serverConfig m; options := options m;
     disconnectDebounce := disconnectDebounce m |}.

Definition set_error (v : option JsError) (m : MCPClient) : MCPClient :=
  {| client := client m; error := v; isConnected := isConnected m;
     locker := locker m; toolInfo := toolInfo m; tools := tools m;
     name := name m; serverConfig := serverConfig m; options := options m;
     disconnectDebounce := disconnectDebounce m |}.

Definition set_isConnected (v : bool) (m : MCPClient) : MCPClient :=
  {| client := client m; error := error m; isConnected := v;
     locker := locker m; toolInfo := toolInfo m; tools := tools m;
     name := name m; serverConfig := serverConfig m; options := options m;
     disconnectDebounce := disconnectDebounce m |}.

Definition set_locker (v : Locker) (m : MCPClient) : MCPClient :=
  {| client := client m; error := error m; isConnected := isConnected m;
     locker := v; toolInfo := toolInfo m; tools := tools m;
     name := name m; serverConfig := serverConfig m; options := options m;
     disconnectDebounce := disconnectDebounce m |}.

Definition set_toolInfo (v : list MCPToolInfo) (m : MCPClient) : MCPClient :=
  {| client := client m; error := error m; isConnected := isConnected m;
     locker := locker m; toolInfo := v; tools := tools m;
     name := name m; serverConfig := serverConfig m; options := options m;
     disconnectDebounce := disconnectDebounce m |}.

Definition set_tools (v : gmap string Tool) (m : MCPClient) : MCPClient :=
  {| client := client m; error := error m; isConnected := isConnected m;
     locker := locker m; toolInfo := toolInfo m; tools := v;
     name := name m; serverConfig := serverConfig m; options := options m;
     disconnectDebounce := disconnectDebounce m |}.

Definition set_disconnectDebounce (v : Debounce) (m : MCPClient) : MCPClient :=
  {| client := client m; error := error m; isConnected := isConnected m;
     locker := locker m; toolInfo := toolInfo m; tools := tools m;
     name := name m; serverConfig := serverConfig m; options := options m;
     disconnectDebounce := v |}.

(** ** Running a program *)

(** The atomic segment at the head of a program: everything up to its
    first suspension point, or up to its completion. *)
Fixpoint segment {A} (p : Prog A) (w : World) : World * Prog A :=
  match p with
  | Get k => segment (k w) w
  | Put w' k => segment k w'
  | _ => (w, p)
  end.

Inductive Outcome (A : Type) : Type :=
| Returned (a : A)
| Raised (e : JsError)
| Suspended.

Arguments Returned {A} a.
Arguments Raised {A} e.
Arguments Suspended {A}.

(** A task suspended on the locker stays suspended while the lock is
    held; a request is settled by the outside world at any time. *)
Definition blocked (a : Awaitable) (w : World) : bool :=
  match a with
  | LockerWait => isLocked (locker (this w))
  | _ => false
  end.

Definition respond (E : Env) (a : Awaitable) (tr : list Event)
  : JsError + ResultOf a :=
  match a as a0 return JsError + ResultOf a0 with
  | LockerWait => inr tt
  | a0 => settle E a0 tr
  end.

(** One method running alone, to its end: every request is settled the
    way the environment says.  A wait on a lock that nobody else can
    release leaves it [Suspended]. *)
Fixpoint run {A} (E : Env) (p : Prog A) (w : World) : World * Outcome A :=
  match p with
  | Ret a => (w, Returned a)
  | Throw e => (w, Raised e)
  | Get k => run E (k w) w
  | Put w' k => run E k w'
  | Await a k =>
      if blocked a w then (w, Suspended)
      else run E (k (respond E a (trace w))) w
  end.

(** [ends Q X p]: whatever state the program reads at any point (so:
    however other tasks interleave with it) and however its requests
    are settled, a value it returns satisfies [Q] and an exception that
    escapes it satisfies [X]. *)
Fixpoint ends {A} (Q : A → Prop) (X : JsError → Prop) (p : Prog A) : Prop :=
  match p with
  | Ret a => Q a
  | Throw e => X e
  | Get k => ∀ w, ends Q X (k w)
  | Put _ k => ends Q X k
  | Await a k => ∀ r, ends Q X (k r)
  end.

(** No exception escapes the program. *)
Definition never_throws {A} (p : Prog A) : Prop :=
  ends (λ _, True) (λ _, False) p.

(** ** ts-safe chains *)

(** The [safe(...)] chain of the ts-safe package, as callTool uses it.  A
    chain holds a value or an error; once a step awaits, the rest of the
    chain runs when that settles.  [map] transforms the value; [ifOk]
    runs an effect on the value, keeps the value, and turns an exception
    of the effect into the chain's error; [watch] observes the state and
    never changes it; [ifFail] replaces an error by the value its handler
    returns; [unwrap] returns the value or throws the error. *)
Module TsSafe.

Abbreviation Chain A := (Prog (JsError + A)%type).

Definition attempt {A} (p : Prog A) : Chain A :=
  try_catch (v ← p; Ret (inr v)) (λ e, Ret (inl e)).

Definition safe {A} (init : Prog A) : Chain A := attempt init.

Definition map {A B} (f : A → Prog B) (c : Chain A) : Chain B :=
  r ← c;
  match r with
  | inl e => Ret (inl e)
  | inr v => attempt (f v)
  end.

Definition ifOk {A B} (f : A → Prog B) (c : Chain A) : Chain A :=
  r ← c;
  match r with
  | inl e => Ret (inl e)
  | inr v => attempt (f v;; Ret v)
  end.

Definition watch {A} (f : JsError + A → Prog unit) (c : Chain A) : Chain A :=
  r ← c;
  try_catch (f r) (λ _, Ret tt);;
  Ret r.

Definition ifFail {A} (f : JsError → Prog A) (c : Chain A) : Chain A :=
  r ← c;
  match r with
  | inl e => attempt (f e)
  | inr v => Ret (inr v)
  end.

Definition unwrap {A} (c : Chain A) : Prog A :=
  r ← c; liftE r.

End TsSafe.

(** [c |> f] applies the next link [f] of a method chain to [c]. *)
Notation "c '|>' f" := (f c) (at level 45, left associativity, only parsing).

(** ** The environment handed to a subprocess *)

(** [{ ...a, ...b }]: the entries of [b] win. *)
Definition spread (a b : gmap string (option string)) : gmap string (option string) :=
  b ∪ a.

(** [Object.entries(o).reduce((acc, [key, value]) => { if (value !==
    undefined) acc[key] = value; return acc }, {})] *)
Definition definedEntries (o : gmap string (option string)) : gmap string string :=
  map_fold (λ key value acc,
              match value with
              | Some v => <[key := v]> acc
              | None => acc
              end) ∅ o.

(** The [env] option of the subprocess transport. *)
Definition stdioEnv (ambient : gmap string (option string))
    (configEnv : option (gmap string string)) : gmap string string :=
  definedEntries (spread ambient (Some <$> default ∅ configEnv)).

(** ** The methods of MCPClient *)

Section Methods.

Variable E : Env.

(** The deferred action is always [() => { this.disconnect() }]; the
    delay is in whole seconds here. *)
Definition scheduleAutoDisconnect : Prog unit :=
  m ← gets id;
  match autoDisconnectSeconds (options m) with
  | Some secs =>
      if decide (secs = 0) then Ret tt
      else modify (set_disconnectDebounce
                     (debounce (disconnectDebounce m) (secs * 1000)))
  | None => Ret tt
  end.

(** [new Client({ name: this.name, version: "1.0.0" })] *)
Definition new_Client : Prog Client :=
  Get (λ w,
    Put {| this := this w; trace := trace w; clientCount := S (clientCount w) |}
        (Ret {| client_id := clientCount w; client_name := name (this w);
                client_version := "1.0.0" |})).

(** A transport constructor: the call is observable, and may throw. *)
Definition new_Transport (t : Transport) : Prog Transport :=
  emit (EvNewTransport t);;
  match transportFails E t with
  | Some e => Throw e
  | None => Ret t
  end.

(** The transport for [this.serverConfig] (lines 101-135 of connect).
    [new URL(config.url)] accepts what the schema's [url()] check has
    accepted, so it adds no failure of its own. *)
Definition createTransport : Prog Transport :=
  cfg ← gets serverConfig;
  if isMaybeStdioConfig E cfg then
    if IS_MCP_SERVER_SSE_ONLY E then
      Throw (Error "Stdio transport is not supported")
    else
      config ← liftE (MCPStdioConfigZodSchema_parse cfg);
      new_Transport (StdioClientTransport
        {| sp_command := stdio_command config;
           sp_args := stdio_args config;
           sp_env := stdioEnv (process_env E) (stdio_env config);
           sp_cwd := process_cwd E |})
  else if isMaybeSseConfig E cfg then
    config ← liftE (MCPSseConfigZodSchema_parse (isValidUrl E) cfg);
    new_Transport (SSEClientTransport (sse_url config) (sse_headers config))
  else
    Throw (Error "Invalid server config").

Definition toToolInfo (t : ToolDescriptor) : MCPToolInfo :=
  {| ti_name := tool_name t;
     ti_description := tool_description t;
     ti_inputSchema := tool_inputSchema t |}.

(** [tool({ parameters: jsonSchema({..._tool.inputSchema, properties:
    _tool.inputSchema.properties ?? {}, additionalProperties: false }),
    description, execute })] *)
Definition makeTool (t : ToolDescriptor) : JsError + Tool :=
  match wrapperFails E t with
  | Some e => inl e
  | None =>
      inr {| parameters :=
               {| schema_properties :=
                    Some (default ∅ (schema_properties (tool_inputSchema t)));
                  schema_additionalProperties := Some false;
                  schema_rest := schema_rest (tool_inputSchema t) |};
             description := tool_description t;
             target := tool_name t |}
  end.

(** The callback of [toolResponse.tools.reduce((prev, _tool) => { ...;
    prev[_tool.name] = tool(...); return prev }, {})]; an exception
    ends the reduction. *)
Definition addTool (prev : JsError + gmap string Tool) (t : ToolDescriptor)
  : JsError + gmap string Tool :=
  match prev with
  | inl e => inl e
  | inr m =>
      match makeTool t with
      | inl e => inl e
      | inr wrapper => inr (<[tool_name t := wrapper]> m)
      end
  end.

Definition buildTools (ts : list ToolDescriptor) : JsError + gmap string Tool :=
  foldl addTool (inr ∅) ts.

(** The body of the [try] block of connect. *)
Definition connect_try : Prog unit :=
  modify (λ m, set_locker (lock (locker m)) m);;
  c ← new_Client;
  transport ← createTransport;
  await (ClientConnect c transport);;
  log info [LStr "Connected to MCP server"];;
  modify (set_isConnected true);;
  modify (set_error None);;
  modify (set_client (Some c));;
  toolResponse ← await (ClientListTools c);
  modify (set_toolInfo (toToolInfo <$> toolResponse));;
  wrappers ← liftE (buildTools toolResponse);
  modify (set_tools wrappers);;
  scheduleAutoDisconnect.

(** The [catch] block of connect. *)
Definition connect_catch (e : JsError) : Prog unit :=
  log error_level [LErr e];;
  modify (set_isConnected false);;
  modify (set_error (Some e)).

(** [startedAt] only feeds the log message and is left out. *)
Definition connect : Prog (option Client) :=
  m ← gets id;
  if isLocked (locker m) then
    locker_wait;;
    gets client
  else if isConnected m then
    Ret (client m)
  else
    try_catch connect_try connect_catch;;
    modify (λ m, set_locker (unlock (locker m)) m);;
    gets client.

(** Without a handle, [client?.close()] is undefined and nothing is
    requested. *)
Definition disconnect : Prog unit :=
  log info [LStr "Disconnecting from MCP server"];;
  locker_wait;;
  modify (set_isConnected false);;
  c ← gets client;
  modify (set_client None);;
  match c with
  | Some c => try_catch (await (ClientClose c)) (λ e, log error_level [LErr e])
  | None => Ret tt
  end.

(** The object built by the [ifFail] handler of callTool. *)
Definition errorResult (e : JsError) : CallToolResult :=
  {| content :=
       [ {| content_type := "text";
            content_text :=
              JSON_stringify E
                (JObj [("error",
                        JObj [("message", JStr (errorToString E e));
                              ("name", match err_name e with
                                       | Some n => JStr n
                                       | None => JUndefined
                                       end)])]) |} ];
     isError := Some true |}.

Definition callTool (toolName : string) (input : JsVal)
  : Prog (option CallToolResult) :=
  TsSafe.safe (log info [LStr "tool call"; LStr toolName])
  |> TsSafe.map (λ _,
       c ← connect;
       match c with
       | Some c => await (ClientCallTool c toolName input)
       | None => Ret None
       end)
  |> TsSafe.ifOk (λ v,
       if isNull v then Throw (Error "Tool call failed with null")
       else Ret v)
  |> TsSafe.ifOk (λ _, scheduleAutoDisconnect)
  |> TsSafe.watch (λ status,
       match status with
       | inl e => log error_level [LStr "Tool call failed"; LStr toolName; LErr e]
       | inr (Some {| content := cs; isError := Some true |}) =>
           log error_level [LStr "Tool call failed"; LStr toolName; LContent cs]
       | inr _ => Ret tt
       end)
  |> TsSafe.ifFail (λ e, Ret (Some (errorResult e)))
  |> TsSafe.unwrap.

(** The [execute] of a tool wrapper:
    [options?.abortSignal?.throwIfAborted(); return
    this.callTool(_tool.name, params)]. *)
Definition execute (wrapper : Tool) (params : JsVal)
    (opts : option ToolExecutionOptions) : Prog (option CallToolResult) :=
  match opts ≫= abortSignal with
  | Some signal =>
      if aborted signal then Throw (reason signal)
      else callTool (target wrapper) params
  | None => callTool (target wrapper) params
  end.

End Methods.

(** * Outcomes of a run *)

(** Sequencing and recovery on the results of [run]. *)
Definition andThen {A B} (r : World * Outcome A)
    (f : A → World → World * Outcome B) : World * Outcome B :=
  match r with
  | (w, Returned a) => f a w
  | (w, Raised e) => (w, Raised e)
  | (w, Suspended) => (w, Suspended)
  end.

Definition orElse {A} (r : World * Outcome A)
    (h : JsError → World → World * Outcome A) : World * Outcome A :=
  match r with
  | (w, Raised e) => h e w
  | _ => r
  end.

(** ** One attempt to connect, stage by stage *)

(** The handle allocated by an attempt that starts in [w], and the world
    once the attempt has taken the lock and allocated it. *)
Definition attemptClient (w : World) : Client :=
  {| client_id := clientCount w; client_name := name (this w);
     client_version := "1.0.0" |}.

Definition started (w : World) : World :=
  {| this := set_locker (lock (locker (this w))) (this w);
     trace := trace w;
     clientCount := S (clientCount w) |}.

(** The assignments after a successful handshake. *)
Definition handshaken (c : Client) (w : World) : World :=
  upd (set_client (Some c))
    (upd (set_error None)
      (upd (set_isConnected true)
        (record (EvLog info [LStr "Connected to MCP server"]) w))).

(** The effect of [scheduleAutoDisconnect]. *)
Definition rearmed (w : World) : World :=
  match autoDisconnectSeconds (options (this w)) with
  | Some secs =>
      if decide (secs = 0) then w
      else upd (set_disconnectDebounce
                  (debounce (disconnectDebounce (this w)) (secs * 1000))) w
  | None => w
  end.

(** The [catch] block. *)
Definition caught (e : JsError) (w : World) : World :=
  upd (set_error (Some e))
    (upd (set_isConnected false)
      (record (EvLog error_level [LErr e]) w)).

Definition unlocked (w : World) : World :=
  upd (λ m, set_locker (unlock (locker m)) m) w.

(** The world in which the handshake of an attempt is settled, and the
    world in which its request for the tool list is settled; [w1] is the
    world in which the transport was constructed. *)
Definition handshaking (w : World) (t : Transport) (w1 : World) : World :=
  record (EvRequest (ClientConnect (attemptClient w) t)) w1.

Definition listing (w : World) (t : Transport) (w1 : World) : World :=
  record (EvRequest (ClientListTools (attemptClient w)))
    (handshaken (attemptClient w) (handshaking w t w1)).

Inductive Stage :=
| TransportConstruction
| Handshake
| ToolListing
| WrapperConstruction.

(** [attempt E w w' f]: the [try] block of connect, started in [w], ends
    in [w'], either completed ([f = None]) or at the first stage that
    fails, with the error it fails with. *)
Inductive attempt (E : Env) (w : World) : World → option (Stage * JsError) → Prop :=
| attempt_transport w1 e :
    run E (createTransport E) (started w) = (w1, Raised e) →
    attempt E w w1 (Some (TransportConstruction, e))
| attempt_handshake w1 t e :
    run E (createTransport E) (started w) = (w1, Returned t) →
    settle E (ClientConnect (attemptClient w) t) (trace (handshaking w t w1)) = inl e →
    attempt E w (handshaking w t w1) (Some (Handshake, e))
| attempt_listing w1 t e :
    run E (createTransport E) (started w) = (w1, Returned t) →
    settle E (ClientConnect (attemptClient w) t) (trace (handshaking w t w1)) = inr tt →
    settle E (ClientListTools (attemptClient w)) (trace (listing w t w1)) = inl e →
    attempt E w (listing w t w1) (Some (ToolListing, e))
| attempt_wrappers w1 t ts e :
    run E (createTransport E) (started w) = (w1, Returned t) →
    settle E (ClientConnect (attemptClient w) t) (trace (handshaking w t w1)) = inr tt →
    settle E (ClientListTools (attemptClient w)) (trace (listing w t w1)) = inr ts →
    buildTools E ts = inl e →
    attempt E w (upd (set_toolInfo (toToolInfo <$> ts)) (listing w t w1))
      (Some (WrapperConstruction, e))
| attempt_complete w1 t ts wrappers :
    run E (createTransport E) (started w) = (w1, Returned t) →
    settle E (ClientConnect (attemptClient w) t) (trace (handshaking w t w1)) = inr tt →
    settle E (ClientListTools (attemptClient w)) (trace (listing w t w1)) = inr ts →
    buildTools E ts = inr wrappers →
    attempt E w
      (rearmed (upd (set_tools wrappers)
                  (upd (set_toolInfo (toToolInfo <$> ts)) (listing w t w1))))
      None.

(** The world in which connect returns, given how its attempt ended. *)
Definition concluded (w' : World) (f : option (Stage * JsError)) : World :=
  match f with
  | Some (_, e) => unlocked (caught e w')
  | None => unlocked w'
  end.

(** ** One tool call, outcome by outcome *)

(** The world in which callTool calls connect (the call has been
    logged), and the world in which its request is settled. *)
Definition logged (toolName : string) (w : World) : World :=
  record (EvLog info [LStr "tool call"; LStr toolName]) w.

Definition calling (c : Client) (toolName : string) (input : JsVal)
    (w : World) : World :=
  record (EvRequest (ClientCallTool c toolName input)) w.

(** The failure of a tool call, as the [watch] link logs it. *)
Definition reported (toolName : string) (e : JsError) (w : World) : World :=
  record (EvLog error_level [LStr "Tool call failed"; LStr toolName; LErr e]) w.

(** A remote result, as the [watch] link sees it. *)
Definition observed (toolName : string) (r : CallToolResult) (w : World) : World :=
  match isError r with
  | Some true =>
      record (EvLog error_level
                [LStr "Tool call failed"; LStr toolName; LContent (content r)]) w
  | _ => w
  end.

(** What callTool returns, and the world it leaves, when its connect
    has returned [oc] in the world [w1]. *)
Definition called (E : Env) (toolName : string) (input : JsVal)
    (w1 : World) (oc : option Client)
  : World * Outcome (option CallToolResult) :=
  let null := Error "Tool call failed with null" in
  match oc with
  | Some c =>
      match settle E (ClientCallTool c toolName input)
              (trace (calling c toolName input w1)) with
      | inr (Some r) =>
          (observed toolName r (rearmed (calling c toolName input w1)),
           Returned (Some r))
      | inr None =>
          (reported toolName null (calling c toolName input w1),
           Returned (Some (errorResult E null)))
      | inl e =>
          (reported toolName e (calling c toolName input w1),
           Returned (Some (errorResult E e)))
      end
  | None =>
      (reported toolName null w1, Returned (Some (errorResult E null)))
  end.

(** ** Tasks that share the manager *)

(** A suspended task is resumed with the answer to what it waits for,
    and runs its next atomic segment; a task that waits on a held lock,
    or that has ended, cannot be resumed. *)
Definition resume {A} (E : Env) (p : Prog A) (w : World)
  : option (World * Prog A) :=
  match p with
  | Await a k =>
      if blocked a w then None
      else Some (segment (k (respond E a (trace w))) w)
  | _ => None
  end.

(** A connect() and a disconnect() in flight on the same manager. *)
Record Race := {
  world : World;
  connecting : Prog (option Client);
  disconnecting : Prog unit;
}.

Inductive Turn := ConnectTurn | DisconnectTurn.

(** The scheduler gives a turn to one of the two tasks; a task that
    cannot be resumed lets the turn pass. *)
Definition turn (E : Env) (r : Race) (t : Turn) : Race :=
  match t with
  | ConnectTurn =>
      match resume E (connecting r) (world r) with
      | Some (w', p') =>
          {| world := w'; connecting := p'; disconnecting := disconnecting r |}
      | None => r
      end
  | DisconnectTurn =>
      match resume E (disconnecting r) (world r) with
      | Some (w', q') =>
          {| world := w'; connecting := connecting r; disconnecting := q' |}
      | None => r
      end
  end.

Definition race (E : Env) (schedule : list Turn) (r : Race) : Race :=
  foldl (turn E) r schedule.

(** connect() is called, and disconnect() is called before connect()
    is resumed: each runs its first segment. *)
Definition bothCalled (E : Env) (w : World) : Race :=
  {| world := (segment disconnect (segment (connect E) w).1).1;
     connecting := (segment (connect E) w).2;
     disconnecting := (segment disconnect (segment (connect E) w).1).2 |}.

(** A task that holds the lock: it waits for a request, and whenever it
    is resumed with the lock still held, it either ends with the lock
    released or suspends again holding the lock. *)
Inductive holdsLock {A} : Prog A → Prop :=
| holdsLock_await a k :
    a ≠ LockerWait →
    (∀ r w, isLocked (locker (this w)) = true →
       (isLocked (locker (this (segment (k r) w).1)) = false ∧
        ∃ v, (segment (k r) w).2 = Ret v) ∨
       (isLocked (locker (this (segment (k r) w).1)) = true ∧
        holdsLock (segment (k r) w).2)) →
    holdsLock (Await a k).

(** What is left of disconnect() once its wait is over. *)
Definition release : Prog unit :=
  modify (set_isConnected false);;
  c ← gets client;
  modify (set_client None);;
  match c with
  | Some c => try_catch (await (ClientClose c)) (λ e, log error_level [LErr e])
  | None => Ret tt
  end.

(** A disconnect() that is past its wait: it has returned, or it waits
    for the transport to close and will then return, leaving the
    manager as it is. *)
Definition closing (q : Prog unit) : Prop :=
  q = Ret tt ∨
  ∃ a k, q = Await a k ∧ a ≠ LockerWait ∧
         ∀ r w, (segment (k r) w).2 = Ret tt ∧ this (segment (k r) w).1 = this w.

(** The three phases of a race between a connect() and a disconnect()
    that was called while the connect() was in flight. *)
Inductive racing (r : Race) : Prop :=
| racing_attempt :
    disconnecting r = Await LockerWait (λ _, release) →
    isLocked (locker (this (world r))) = true →
    holdsLock (connecting r) →
    racing r
| racing_returned v :
    disconnecting r = Await LockerWait (λ _, release) →
    isLocked (locker (this (world r))) = false →
    connecting r = Ret v →
    racing r
| racing_released v :
    connecting r = Ret v →
    isConnected (this (world r)) = false →
    client (this (world r)) = None →
    closing (disconnecting r) →
    racing r.

(** The handles that were asked to close, in order. *)
Fixpoint closes (tr : list Event) : list Client :=
  match tr with
  | EvRequest (ClientClose c) :: tr' => c :: closes tr'
  | _ :: tr' => closes tr'
  | [] => []
  end.

(** An attempt in flight while the handles [cs] have been asked to
    close: it holds the lock while it is suspended, asks no handle to
    close, and returns the handle field with the lock released. *)
Inductive establishing (cs : list Client) : Prog (option Client) → Prop :=
| establishing_await a k :
    a ≠ LockerWait →
    (∀ r w, isLocked (locker (this w)) = true → closes (trace w) = cs →
       (isLocked (locker (this (segment (k r) w).1)) = false ∧
        closes (trace (segment (k r) w).1) = cs ∧
        (segment (k r) w).2 = Ret (client (this (segment (k r) w).1))) ∨
       (isLocked (locker (this (segment (k r) w).1)) = true ∧
        closes (trace (segment (k r) w).1) = cs ∧
        establishing cs (segment (k r) w).2)) →
    establishing cs (Await a k).

(** The world that disconnect() leaves once its wait is over in [w]:
    the flag and the handle field are reset, and the handle that was
    stored in [w] is asked to close, a rejection being logged. *)
Definition released (E : Env) (w : World) : World :=
  let w1 := upd (set_client None) (upd (set_isConnected false) w) in
  match client (this w) with
  | Some c =>
      let w2 := record (EvRequest (ClientClose c)) w1 in
      match settle E (ClientClose c) (trace w2) with
      | inl e => record (EvLog error_level [LErr e]) w2
      | inr _ => w2
      end
  | None => w1
  end.

(** The four phases of a disconnect() that was called while a connect()
    was in flight, the handles [cs] having been asked to close before:
    the attempt is in flight; connect() has returned the handle field
    and disconnect() still waits; disconnect() has resumed in the world
    [w1], found the handle [c] there and waits for it to close;
    disconnect() has returned, leaving what its release leaves of [w1]. *)
Inductive meeting (E : Env) (cs : list Client) (r : Race) : Prop :=
| meeting_attempt :
    disconnecting r = Await LockerWait (λ _, release) →
    isLocked (locker (this (world r))) = true →
    closes (trace (world r)) = cs →
    establishing cs (connecting r) →
    meeting E cs r
| meeting_returned :
    disconnecting r = Await LockerWait (λ _, release) →
    isLocked (locker (this (world r))) = false →
    closes (trace (world r)) = cs →
    connecting r = Ret (client (this (world r))) →
    meeting E cs r
| meeting_closing w1 c :
    closes (trace w1) = cs →
    client (this w1) = Some c →
    connecting r = Ret (Some c) →
    world r = record (EvRequest (ClientClose c))
                (upd (set_client None) (upd (set_isConnected false) w1)) →
    disconnecting r =
      Await (ClientClose c)
        (λ answer : JsError + unit,
           try_catch (liftE answer) (λ e, log error_level [LErr e])) →
    meeting E cs r
| meeting_done w1 :
    closes (trace w1) = cs →
    connecting r = Ret (client (this w1)) →
    world r = released E w1 →
    disconnecting r = Ret tt →
    meeting E cs r.

(** * Sample configurations and environments *)

Module Demo.

(** The playwright entry of scripts/generate-mcp-config.ts, with an
    environment entry added. *)
Definition playwright : MCPServerConfig :=
  {| command := Some "npx";
     args := Some ["@playwright/mcp@latest"];
     env := Some {[ "DEBUG" := "1" ]};
     url := None;
     headers := None |}.

Definition echo : ToolDescriptor :=
  {| tool_name := "echo";
     tool_description := Some "echo the text";
     tool_inputSchema :=
       {| schema_properties := None;
          schema_additionalProperties := None;
          schema_rest := [("type", JStr "object")] |} |}.

Definition hi : CallToolResult :=
  {| content := [ {| content_type := "text"; content_text := "hi" |} ];
     isError := None |}.

Definition refused : JsError := Error "connection closed".

(** A server that answers every request. *)
Definition answers (a : Awaitable) (tr : list Event) : JsError + ResultOf a :=
  match a with
  | LockerWait => inr tt
  | ClientConnect _ _ => inr tt
  | ClientListTools _ => inr [echo]
  | ClientCallTool _ _ _ => inr (Some hi)
  | ClientClose _ => inr tt
  end.

(** A server that completes the handshake and then rejects the
    request for its tools; tool calls are answered. *)
Definition listing_fails (a : Awaitable) (tr : list Event)
  : JsError + ResultOf a :=
  match a with
  | ClientListTools _ => inl refused
  | a0 => answers a0 tr
  end.

(** A server whose connection breaks on every tool call. *)
Definition calls_fail (a : Awaitable) (tr : list Event)
  : JsError + ResultOf a :=
  match a with
  | ClientCallTool _ _ _ => inl refused
  | a0 => answers a0 tr
  end.

Definition environment (sseOnly : bool)
    (world : ∀ a : Awaitable, list Event → JsError + ResultOf a) : Env :=
  {| IS_MCP_SERVER_SSE_ONLY := sseOnly;
     isMaybeStdioConfig := λ cfg, bool_decide (is_Some (command cfg));
     isMaybeSseConfig := λ cfg, bool_decide (is_Some (url cfg));
     isValidUrl := λ _, true;
     process_env := {[ "PATH" := Some "/usr/bin"; "EDITOR" := None ]};
     process_cwd := "/srv/app";
     transportFails := λ _, None;
     wrapperFails := λ _, None;
     settle := world;
     errorToString := err_message;
     JSON_stringify := λ _, "{}" |}.

(** The four situations of the examples: a server that answers, the
    same under the network-only policy, a server that does not list
    its tools, and a server that breaks on tool calls. *)
Definition healthy : Env := environment false answers.
Definition policy : Env := environment true answers.
Definition mute : Env := environment false listing_fails.
Definition broken : Env := environment false calls_fail.

(** The transport connect builds for [playwright]. *)
Definition transport (E : Env) : Transport :=
  StdioClientTransport
    {| sp_command := "npx";
       sp_args := Some ["@playwright/mcp@latest"];
       sp_env := stdioEnv (process_env E) (Some {[ "DEBUG" := "1" ]});
       sp_cwd := process_cwd E |}.

(** A manager just constructed, with a 30 second idle timeout. *)
Definition fresh : World :=
  {| this := createMCPClient "playwright" playwright
               {| autoDisconnectSeconds := Some 30 |};
     trace := [];
     clientCount := 0 |}.

(** The handle of the first attempt of [fresh]. *)
Definition handle : Client :=
  {| client_id := 0; client_name := "playwright"; client_version := "1.0.0" |}.

(** The manager after its first connect(). *)
Definition connected (E : Env) : World := (run E (connect E) fresh).1.

(** The input of the example calls: [{ text: "hi" }]. *)
Definition text : JsVal := JObj [("text", JStr "hi")].

End Demo.

(** * Around the claims: more outcomes, more samples *)

(** ** disconnect(), outcome *)

(** The world in which disconnect() reaches its wait. *)
Definition leaving (w : World) : World :=
  record (EvLog info [LStr "Disconnecting from MCP server"]) w.

(** ** Two connect() calls on one manager *)

(** The number of handshakes that were started. *)
Fixpoint handshakes (tr : list Event) : nat :=
  match tr with
  | EvRequest (ClientConnect _ _) :: tr' => S (handshakes tr')
  | _ :: tr' => handshakes tr'
  | [] => 0%nat
  end.

(** Two connect() calls in flight on the same manager. *)
Record Contest := {
  arena : World;
  first : Prog (option Client);
  second : Prog (option Client);
}.

Inductive Caller := FirstCaller | SecondCaller.

Definition advance (E : Env) (r : Contest) (t : Caller) : Contest :=
  match t with
  | FirstCaller =>
      match resume E (first r) (arena r) with
      | Some (w', p') => {| arena := w'; first := p'; second := second r |}
      | None => r
      end
  | SecondCaller =>
      match resume E (second r) (arena r) with
      | Some (w', p') => {| arena := w'; first := first r; second := p' |}
      | None => r
      end
  end.

Definition contest (E : Env) (schedule : list Caller) (r : Contest) : Contest :=
  foldl (advance E) r schedule.

(** connect() is called twice in a row: each call runs its first
    segment. *)
Definition calledTwice (E : Env) (w : World) : Contest :=
  {| arena := (segment (connect E) (segment (connect E) w).1).1;
     first := (segment (connect E) w).2;
     second := (segment (connect E) (segment (connect E) w).1).2 |}.

(** An attempt in flight after [n] handshakes were started: it holds
    the lock, starts no further handshake, and returns the handle field
    with the lock released. *)
Inductive attempting (n : nat) : Prog (option Client) → Prop :=
| attempting_await a k :
    a ≠ LockerWait →
    (∀ r w, isLocked (locker (this w)) = true → handshakes (trace w) = n →
       (isLocked (locker (this (segment (k r) w).1)) = false ∧
        handshakes (trace (segment (k r) w).1) = n ∧
        (segment (k r) w).2 = Ret (client (this (segment (k r) w).1))) ∨
       (isLocked (locker (this (segment (k r) w).1)) = true ∧
        handshakes (trace (segment (k r) w).1) = n ∧
        attempting n (segment (k r) w).2)) →
    attempting n (Await a k).

(** The phases of two connect() calls of which the first is in flight
    when the second is made. *)
Inductive contending (n : nat) (r : Contest) : Prop :=
| contending_attempt :
    second r = Await LockerWait (λ _, gets client) →
    isLocked (locker (this (arena r))) = true →
    handshakes (trace (arena r)) = n →
    attempting n (first r) →
    contending n r
| contending_returned :
    second r = Await LockerWait (λ _, gets client) →
    isLocked (locker (this (arena r))) = false →
    handshakes (trace (arena r)) = n →
    first r = Ret (client (this (arena r))) →
    contending n r
| contending_both :
    first r = Ret (client (this (arena r))) →
    second r = Ret (client (this (arena r))) →
    isLocked (locker (this (arena r))) = false →
    handshakes (trace (arena r)) = n →
    contending n r.

(** ** scripts/generate-mcp-config.ts *)

Module GenerateMcpConfig.








End GenerateMcpConfig.

(** ** The application store *)

Module AppStore.

Section Store.

(** The types of app-types/chat and the constant of lib/ai/models, which
    are not part of the sources. *)
Variables ChatThread Project AppDefaultToolkit : Type.
Variable DEFAULT_MODEL : string.

Inductive ToolChoice := choice_auto | choice_none | choice_manual.

Record AllowedMCPServer := { allowed_tools : list string }.

Record AppState := {
  threadList : list ChatThread;
  mcpList : list MCPServerInfo;
  projectList : list Project;
  currentThreadId : option string;
  currentProjectId : option string;
  toolChoice : ToolChoice;
  allowedMcpServers : option (gmap string AllowedMCPServer);
  allowedAppDefaultToolkit : option (list AppDefaultToolkit);
  model : string;
  temporaryModel : string;
  openTemporaryChat : bool;
  openShortcutsPopup : bool;
  openChatPreferences : bool;
}.

Definition initialState : AppState :=
  {| threadList := []; projectList := []; mcpList := [];
     currentThreadId := None; currentProjectId := None;
     toolChoice := choice_auto;
     allowedMcpServers := None;
     allowedAppDefaultToolkit := Some [];
     model := DEFAULT_MODEL; temporaryModel := DEFAULT_MODEL;
     openTemporaryChat := false; openShortcutsPopup := false;
     openChatPreferences := false |}.

(** [a || b] on strings: the empty string is falsy. *)
Definition orString (a b : string) : string :=
  if decide (a = "") then b else a.

(** [a || b] on a value that may be undefined: an object or an array,
    even an empty one, is truthy. *)
Definition orDefined {A} (a b : option A) : option A :=
  match a with Some _ => a | None => b end.

(** The part of the state that is persisted. *)
Record Persisted := {
  persisted_model : string;
  persisted_toolChoice : ToolChoice;
  persisted_allowedMcpServers : option (gmap string AllowedMCPServer);
  persisted_allowedAppDefaultToolkit : option (list AppDefaultToolkit);
  persisted_temporaryModel : string;
}.

(** The three values of [toolChoice] are non-empty strings, so
    [state.toolChoice || initialState.toolChoice] is [state.toolChoice]. *)
Definition partialize (state : AppState) : Persisted :=
  {| persisted_model := orString (model state) (model initialState);
     persisted_toolChoice := toolChoice state;
     persisted_allowedMcpServers :=
       orDefined (allowedMcpServers state) (allowedMcpServers initialState);
     persisted_allowedAppDefaultToolkit :=
       orDefined (allowedAppDefaultToolkit state)
         (allowedAppDefaultToolkit initialState);
     persisted_temporaryModel :=
       orString (temporaryModel state) (temporaryModel initialState) |}.

End Store.

Arguments model {_ _ _} _.
Arguments temporaryModel {_ _ _} _.
Arguments toolChoice {_ _ _} _.
Arguments allowedMcpServers {_ _ _} _.
Arguments allowedAppDefaultToolkit {_ _ _} _.
Arguments persisted_model {_} _.
Arguments persisted_temporaryModel {_} _.
Arguments persisted_toolChoice {_} _.
Arguments persisted_allowedMcpServers {_} _.
Arguments persisted_allowedAppDefaultToolkit {_} _.
Arguments initialState {_ _ _} DEFAULT_MODEL.
Arguments partialize {_ _ _} DEFAULT_MODEL state.

End AppStore.

(** ** More samples *)

Module Samples.

(** A network server. *)
Definition remote : MCPServerConfig :=
  {| command := None; args := None; env := None;
     url := Some "https://mcp.example.com/sse";
     headers := Some {[ "Authorization" := "Bearer token" ]} |}.


(** A configuration of neither shape. *)
Definition shapeless : MCPServerConfig :=
  {| command := None; args := None; env := None; url := None; headers := None |}.

(** A manager just constructed for [cfg], with the idle timeout
    [timeout]. *)
Definition manager (cfg : MCPServerConfig) (timeout : option Z) : World :=
  {| this := createMCPClient "server" cfg {| autoDisconnectSeconds := timeout |};
     trace := [];
     clientCount := 0 |}.

(** A tool whose result reports an error of the tool. *)
Definition failed : CallToolResult :=
  {| content := [ {| content_type := "text"; content_text := "no such file" |} ];
     isError := Some true |}.

(** A server with two tools of the same name. *)
Definition twin : ToolDescriptor :=
  {| tool_name := "echo";
     tool_description := Some "the second echo";
     tool_inputSchema :=
       {| schema_properties := Some {[ "text" := JObj [("type", JStr "string")] ]};
          schema_additionalProperties := Some true;
          schema_rest := [("type", JStr "object")] |} |}.

(** An environment in which the wrapper of a tool without description
    cannot be built. *)
Definition strict : Env :=
  {| IS_MCP_SERVER_SSE_ONLY := false;
     isMaybeStdioConfig := λ cfg, bool_decide (is_Some (command cfg));
     isMaybeSseConfig := λ cfg, bool_decide (is_Some (url cfg));
     isValidUrl := λ _, true;
     process_env := ∅;
     process_cwd := "/";
     transportFails := λ _, None;
     wrapperFails := λ d, match tool_description d with
                          | Some _ => None
                          | None => Some (Error "description is required")
                          end;
     settle := Demo.answers;
     errorToString := err_message;
     JSON_stringify := λ _, "{}" |}.

Definition nameless : ToolDescriptor :=
  {| tool_name := "raw"; tool_description := None;
     tool_inputSchema := tool_inputSchema Demo.echo |}.

End Samples.

(** * Properties *)

(** ** The calculus of [run] *)

Section RunCalculus.

Variable E : Env.

Lemma run_bind {A B} (m : Prog A) (f : A → Prog B) w :
  run E (m ≫= f) w = andThen (run E m w) (λ a w', run E (f a) w').
Proof.
  unfold mbind, Prog_bind. revert w.
  induction m as [a|e|k IH|w' k IH|a k IH]; intros w; simpl; auto.
  destruct (blocked a w); auto.
Qed.

Lemma run_try_catch {A} (m : Prog A) (h : JsError → Prog A) w :
  run E (try_catch m h) w = orElse (run E m w) (λ e w', run E (h e) w').
Proof.
  revert w.
  induction m as [a|e|k IH|w' k IH|a k IH]; intros w; simpl; auto.
  destruct (blocked a w); auto.
Qed.

Lemma run_modify f w : run E (modify f) w = (upd f w, Returned tt).
Proof. reflexivity. Qed.

Lemma run_gets {A} (f : MCPClient → A) w : run E (gets f) w = (w, Returned (f (this w))).
Proof. reflexivity. Qed.

Lemma run_log lvl msg w : run E (log lvl msg) w = (record (EvLog lvl msg) w, Returned tt).
Proof. reflexivity. Qed.

Lemma run_liftE {A} (r : JsError + A) w :
  run E (liftE r) w = (w, match r with inl e => Raised e | inr a => Returned a end).
Proof. destruct r; reflexivity. Qed.

Lemma run_await a w :
  blocked a (record (EvRequest a) w) = false →
  run E (await a) w =
    (record (EvRequest a) w,
     match respond E a (trace w ++ [EvRequest a]) with
     | inl e => Raised e
     | inr v => Returned v
     end).
Proof.
  intros Hb. unfold await, emit. simpl. rewrite Hb.
  destruct (respond E a (trace w ++ [EvRequest a])); reflexivity.
Qed.

Lemma run_await_ClientConnect c t w :
  run E (await (ClientConnect c t) : Prog unit) w =
    (record (EvRequest (ClientConnect c t)) w,
     match settle E (ClientConnect c t) (trace w ++ [EvRequest (ClientConnect c t)]) with
     | inl e => Raised e
     | inr v => Returned v
     end).
Proof. by apply (run_await (ClientConnect c t)). Qed.

Lemma run_await_ClientListTools c w :
  run E (await (ClientListTools c) : Prog (list ToolDescriptor)) w =
    (record (EvRequest (ClientListTools c)) w,
     match settle E (ClientListTools c) (trace w ++ [EvRequest (ClientListTools c)]) with
     | inl e => Raised e
     | inr v => Returned v
     end).
Proof. by apply (run_await (ClientListTools c)). Qed.

Lemma run_await_ClientCallTool c toolName input w :
  run E (await (ClientCallTool c toolName input) : Prog (option CallToolResult)) w =
    (record (EvRequest (ClientCallTool c toolName input)) w,
     match settle E (ClientCallTool c toolName input)
             (trace w ++ [EvRequest (ClientCallTool c toolName input)]) with
     | inl e => Raised e
     | inr v => Returned v
     end).
Proof. by apply (run_await (ClientCallTool c toolName input)). Qed.

Lemma run_await_ClientClose c w :
  run E (await (ClientClose c) : Prog unit) w =
    (record (EvRequest (ClientClose c)) w,
     match settle E (ClientClose c) (trace w ++ [EvRequest (ClientClose c)]) with
     | inl e => Raised e
     | inr v => Returned v
     end).
Proof. by apply (run_await (ClientClose c)). Qed.

Lemma run_new_Client w :
  run E new_Client w =
    ({| this := this w; trace := trace w; clientCount := S (clientCount w) |},
     Returned {| client_id := clientCount w; client_name := name (this w);
                 client_version := "1.0.0" |}).
Proof. reflexivity. Qed.

End RunCalculus.

Ltac run_simpl :=
  repeat first
    [ rewrite run_bind | rewrite run_try_catch | rewrite run_modify
    | rewrite run_gets | rewrite run_log | rewrite run_liftE
    | rewrite run_new_Client
    | rewrite run_await_ClientConnect | rewrite run_await_ClientListTools
    | rewrite run_await_ClientCallTool | rewrite run_await_ClientClose
    | progress cbn [andThen orElse respond] ].

(** ** connect, alone *)

Section Connect.

Variable E : Env.

Lemma run_scheduleAutoDisconnect w :
  run E scheduleAutoDisconnect w = (rearmed w, Returned tt).
Proof.
  unfold scheduleAutoDisconnect, rearmed. run_simpl. cbn [id].
  destruct (autoDisconnectSeconds (options (this w))) as [secs|]; [|reflexivity].
  destruct (decide (secs = 0)); reflexivity.
Qed.

Lemma run_connect_catch e w :
  run E (connect_catch e) w = (caught e w, Returned tt).
Proof. reflexivity. Qed.

Lemma run_createTransport w :
  ∃ evs o,
    run E (createTransport E) w =
      ({| this := this w; trace := trace w ++ evs; clientCount := clientCount w |}, o)
    ∧ o ≠ Suspended
    ∧ (evs = [] ∨ ∃ t, evs = [EvNewTransport t]).
Proof.
  unfold createTransport, new_Transport. run_simpl.
  destruct (isMaybeStdioConfig E _).
  - destruct (IS_MCP_SERVER_SSE_ONLY E).
    + exists [], (Raised (Error "Stdio transport is not supported")).
      rewrite app_nil_r. destruct w; simpl; auto.
    + run_simpl. destruct (MCPStdioConfigZodSchema_parse _) as [e|config];
        cbn [andThen].
      * exists [], (Raised e). rewrite app_nil_r. destruct w; simpl; auto.
      * run_simpl. unfold emit. simpl.
        destruct (transportFails E _) as [e|]; simpl;
          eexists [_], _; split_and!; eauto; done.
  - destruct (isMaybeSseConfig E _).
    + run_simpl. destruct (MCPSseConfigZodSchema_parse _ _) as [e|config];
        cbn [andThen].
      * exists [], (Raised e). rewrite app_nil_r. destruct w; simpl; auto.
      * run_simpl. unfold emit. simpl.
        destruct (transportFails E _) as [e|]; simpl;
          eexists [_], _; split_and!; eauto; done.
    + exists [], (Raised (Error "Invalid server config")).
      rewrite app_nil_r. destruct w; simpl; auto.
Qed.

(** connect, called with the lock free on a manager that is not
    connected, makes one attempt and returns [this.client]. *)
Lemma connect_attempt w :
  isLocked (locker (this w)) = false →
  isConnected (this w) = false →
  ∃ w1 f,
    attempt E w w1 f ∧
    run E (connect E) w =
      (concluded w1 f, Returned (client (this (concluded w1 f)))).
Proof.
  intros Hl Hc.
  unfold connect. run_simpl. cbn [id]. rewrite Hl, Hc.
  unfold connect_try. run_simpl.
  change {| this := this (upd _ w); trace := _; clientCount := _ |} with (started w).
  change {| client_id := _; client_name := _; client_version := _ |}
    with (attemptClient w).
  destruct (run_createTransport (started w)) as (evs & o & Hrun & Hns & _).
  destruct (run E (createTransport E) (started w)) as [w1 o1] eqn:Ht.
  destruct o1 as [t|e|]; cbn [andThen orElse].
  2:{ exists w1, (Some (TransportConstruction, e)). split; [by constructor|].
      rewrite run_connect_catch. run_simpl. reflexivity. }
  2:{ congruence. }
  run_simpl.
  destruct (settle E (ClientConnect (attemptClient w) t) _) as [e|[]] eqn:Hh;
    cbn [andThen orElse].
  { eexists _, (Some (Handshake, e)). split; [by eapply attempt_handshake|].
    rewrite run_connect_catch. run_simpl. reflexivity. }
  run_simpl.
  destruct (settle E (ClientListTools (attemptClient w)) _) as [e|ts] eqn:Hlist;
    cbn [andThen orElse].
  { eexists _, (Some (ToolListing, e)). split; [by eapply attempt_listing|].
    rewrite run_connect_catch. run_simpl. reflexivity. }
  run_simpl.
  destruct (buildTools E ts) as [e|wrappers] eqn:Hb; cbn [andThen orElse].
  { eexists _, (Some (WrapperConstruction, e)).
    split; [by eapply attempt_wrappers|].
    rewrite run_connect_catch. run_simpl. reflexivity. }
  run_simpl. rewrite run_scheduleAutoDisconnect. run_simpl.
  eexists _, None. split; [by eapply attempt_complete|]. reflexivity.
Qed.

End Connect.

(** ** Exceptions *)

Section Ends.

Context {A B : Type}.

Lemma ends_weaken (Q Q' : A → Prop) (X X' : JsError → Prop) (p : Prog A) :
  (∀ a, Q a → Q' a) → (∀ e, X e → X' e) → ends Q X p → ends Q' X' p.
Proof.
  intros HQ HX. induction p as [a|e|k IH|w' k IH|a k IH]; simpl; auto.
Qed.

Lemma ends_bind (P : A → Prop) (Q : B → Prop) (X : JsError → Prop)
    (m : Prog A) (f : A → Prog B) :
  ends P X m → (∀ a, P a → ends Q X (f a)) → ends Q X (m ≫= f).
Proof.
  intros Hm Hf. unfold mbind, Prog_bind.
  induction m as [a|e|k IH|w' k IH|a k IH]; simpl in *; auto.
Qed.

Lemma ends_try_catch (Q : A → Prop) (X Y : JsError → Prop)
    (m : Prog A) (h : JsError → Prog A) :
  ends Q Y m → (∀ e, Y e → ends Q X (h e)) → ends Q X (try_catch m h).
Proof.
  intros Hm Hh.
  induction m as [a|e|k IH|w' k IH|a k IH]; simpl in *; auto.
Qed.

(** What [ends] says about a run. *)
Lemma ends_run (E : Env) (Q : A → Prop) (X : JsError → Prop) (p : Prog A) w :
  ends Q X p →
  match (run E p w).2 with
  | Returned a => Q a
  | Raised e => X e
  | Suspended => True
  end.
Proof.
  revert w. induction p as [a|e|k IH|w' k IH|a k IH]; intros w Hp; simpl in *.
  - exact Hp.
  - exact Hp.
  - apply IH, Hp.
  - apply IH, Hp.
  - destruct (blocked a w); [exact I|]. apply IH, Hp.
Qed.

End Ends.

Lemma ends_any {A} (p : Prog A) : ends (λ _, True) (λ _, True) p.
Proof. induction p; simpl; auto. Qed.

Lemma never_throws_bind {A B} (m : Prog A) (f : A → Prog B) :
  never_throws m → (∀ a, never_throws (f a)) → never_throws (m ≫= f).
Proof. intros Hm Hf. eapply ends_bind; [exact Hm|]. intros a _. apply Hf. Qed.

(** A [try] with a handler that does not throw does not throw. *)
Lemma never_throws_try_catch {A} (m : Prog A) (h : JsError → Prog A) :
  (∀ e, never_throws (h e)) → never_throws (try_catch m h).
Proof.
  intros Hh. eapply ends_try_catch; [apply ends_any|]. intros e _. apply Hh.
Qed.

Lemma never_throws_modify f : never_throws (modify f).
Proof. by intros w. Qed.

Lemma never_throws_gets {A} (f : MCPClient → A) : never_throws (gets f).
Proof. by intros w. Qed.

Lemma never_throws_log lvl msg : never_throws (log lvl msg).
Proof. by intros w. Qed.

Lemma never_throws_run {A} (E : Env) (p : Prog A) w e :
  never_throws p → (run E p w).2 ≠ Raised e.
Proof.
  intros Hp He. pose proof (ends_run E _ _ p w Hp) as H.
  by rewrite He in H.
Qed.

Create HintDb throws.

#[global] Hint Resolve never_throws_modify never_throws_gets never_throws_log : throws.

Lemma never_throws_connect (E : Env) : never_throws (connect E).
Proof.
  unfold connect. apply never_throws_bind; [auto with throws|]. intros m.
  destruct (isLocked (locker m)).
  { apply never_throws_bind; [by intros r|auto with throws]. }
  destruct (isConnected m); [done|].
  apply never_throws_bind.
  - apply never_throws_try_catch. intros e. unfold connect_catch.
    repeat (apply never_throws_bind; [auto with throws|intros _]).
    auto with throws.
  - intros _. apply never_throws_bind; auto with throws.
Qed.

(** ** What an attempt leaves behind *)

Lemma createTransport_this (E : Env) w w1 o :
  run E (createTransport E) w = (w1, o) → this w1 = this w.
Proof.
  destruct (run_createTransport E w) as (evs & o' & Hrun & _).
  rewrite Hrun. by intros [= <- _].
Qed.

(** A failed attempt touches neither the tool mapping, nor the options
    the manager was constructed with, nor the idle timer. *)
Lemma attempt_failed (E : Env) w w1 stage e :
  attempt E w w1 (Some (stage, e)) →
  tools (this w1) = tools (this w) ∧
  options (this w1) = options (this w) ∧
  disconnectDebounce (this w1) = disconnectDebounce (this w).
Proof.
  inversion 1 as [? ? Ht|? ? ? Ht|? ? ? Ht|? ? ? ? Ht|]; subst;
    apply createTransport_this in Ht; simpl; rewrite Ht; done.
Qed.

(** C1: connect() never raises to its caller.  With the lock held it
    waits and then returns the handle; on a connected manager it returns
    the handle at once; otherwise it makes one attempt, and whichever
    stage fails first (transport construction, handshake, tool listing,
    wrapper construction), the error is stored in the error field, the
    manager is marked disconnected and the tool mapping is left as it
    was, the lock is released and the handle field is returned. *)
Theorem connect_never_raises (E : Env) (w : World) :
  never_throws (connect E) ∧
  if isLocked (locker (this w)) then
    ∃ k, segment (connect E) w = (w, Await LockerWait k) ∧
         ∀ r w', run E (k r) w' = (w', Returned (client (this w')))
  else if isConnected (this w) then
    run E (connect E) w = (w, Returned (client (this w)))
  else
    ∃ w' w1 f,
      run E (connect E) w = (w', Returned (client (this w'))) ∧
      attempt E w w1 f ∧
      isLocked (locker (this w')) = false ∧
      match f with
      | Some (_, e) =>
          error (this w') = Some e ∧
          isConnected (this w') = false ∧
          info_status (getInfo (this w')) = disconnected ∧
          tools (this w') = tools (this w)
      | None =>
          error (this w') = None ∧ isConnected (this w') = true
      end.
Proof.
  split; [apply never_throws_connect|].
  destruct (isLocked (locker (this w))) eqn:Hl.
  { unfold connect. simpl. rewrite Hl. simpl. eexists. split; [reflexivity|].
    intros r w'. reflexivity. }
  destruct (isConnected (this w)) eqn:Hc.
  { unfold connect. simpl. rewrite Hl, Hc. reflexivity. }
  destruct (connect_attempt E w Hl Hc) as (w1 & f & Hatt & Hrun).
  exists (concluded w1 f), w1, f. split; [exact Hrun|]. split; [exact Hatt|].
  destruct f as [[stage e]|].
  - apply attempt_failed in Hatt as (Ht & _). simpl. by rewrite Ht.
  - inversion Hatt; subst. simpl. split; [reflexivity|].
    unfold rearmed. simpl.
    destruct (autoDisconnectSeconds _) as [secs|]; [|done].
    destruct (decide (secs = 0)); done.
Qed.

(** ** The snapshot *)

(** C7: the status of the snapshot returned by getInfo() is computed
    from the lock and the connected flag at the time of the call:
    loading exactly when the lock is held, and otherwise connected or
    disconnected as the flag says. *)
Theorem getInfo_status (m : MCPClient) :
  (info_status (getInfo m) = loading ↔ isLocked (locker m) = true) ∧
  (info_status (getInfo m) = connected ↔
     isLocked (locker m) = false ∧ isConnected m = true) ∧
  (info_status (getInfo m) = disconnected ↔
     isLocked (locker m) = false ∧ isConnected m = false).
Proof.
  unfold getInfo; simpl.
  destruct (isLocked (locker m)), (isConnected m); intuition congruence.
Qed.

(** ** The environment of the subprocess *)

Lemma definedEntries_lookup (o : gmap string (option string)) key :
  definedEntries o !! key = mjoin (o !! key).
Proof.
  unfold definedEntries.
  apply (map_fold_weak_ind (λ r m, r !! key = mjoin (m !! key))).
  - by rewrite !lookup_empty.
  - intros i x m r Hi IH.
    destruct (decide (i = key)) as [->|Hne].
    + rewrite lookup_insert_eq. destruct x as [v|]; simpl.
      * by rewrite lookup_insert_eq.
      * rewrite IH, Hi. done.
    + rewrite (lookup_insert_ne m) by done. destruct x as [v|]; [|done].
      by rewrite lookup_insert_ne.
Qed.

Lemma spread_lookup (a b : gmap string (option string)) key :
  spread a b !! key = match b !! key with Some v => Some v | None => a !! key end.
Proof. unfold spread. rewrite lookup_union. by destruct (b !! key), (a !! key). Qed.

Lemma stdioEnv_lookup ambient configEnv key :
  stdioEnv ambient configEnv !! key =
    match default ∅ configEnv !! key with
    | Some v => Some v
    | None => mjoin (ambient !! key)
    end.
Proof.
  unfold stdioEnv. rewrite definedEntries_lookup, spread_lookup, lookup_fmap.
  by destruct (default ∅ configEnv !! key).
Qed.

(** ** Transport policy *)

(** C5: under the network-only policy a Stdio-shaped configuration
    makes connect() fail with the policy error at transport
    construction: the error is stored, the manager is disconnected, and
    the only thing that happened outside is the error being logged -- no
    transport was constructed and no request issued. *)
Theorem stdio_refused_under_sse_only (E : Env) (w : World) :
  isLocked (locker (this w)) = false →
  isConnected (this w) = false →
  isMaybeStdioConfig E (serverConfig (this w)) = true →
  IS_MCP_SERVER_SSE_ONLY E = true →
  let e := Error "Stdio transport is not supported" in
  ∃ w',
    run E (connect E) w = (w', Returned (client (this w))) ∧
    attempt E w (started w) (Some (TransportConstruction, e)) ∧
    error (this w') = Some e ∧
    isConnected (this w') = false ∧
    info_status (getInfo (this w')) = disconnected ∧
    trace w' = trace w ++ [EvLog error_level [LErr e]] ∧
    e ≠ Error "Invalid server config" ∧ (∀ issue, e ≠ ZodError issue).
Proof.
  intros Hl Hc Hstdio Hsse e.
  assert (Ht : run E (createTransport E) (started w) = (started w, Raised e)).
  { unfold createTransport. run_simpl. simpl. by rewrite Hstdio, Hsse. }
  exists (concluded (started w) (Some (TransportConstruction, e))).
  assert (Hatt : attempt E w (started w) (Some (TransportConstruction, e)))
    by by constructor.
  split_and!; try done.
  destruct (connect_attempt E w Hl Hc) as (w1 & f & Hatt' & ->).
  inversion Hatt' as [? ? Ht'|? ? ? Ht'|? ? ? Ht'|? ? ? ? Ht'|? ? ? ? Ht'];
    rewrite Ht in Ht'; by simplify_eq.
Qed.

Lemma stdio_refused_under_sse_only_witness :
  ∃ w', run Demo.policy (connect Demo.policy) Demo.fresh = (w', Returned None) ∧
        trace w' = [EvLog error_level [LErr (Error "Stdio transport is not supported")]].
Proof.
  destruct (stdio_refused_under_sse_only Demo.policy Demo.fresh)
    as (w' & Hrun & _ & _ & _ & _ & Htr & _); try reflexivity.
  exists w'. split; [exact Hrun|exact Htr].
Defined.

(** ** The handle after a failed attempt *)

(** An attempt ends in one way only. *)
Lemma attempt_functional (E : Env) w w1 f1 w2 f2 :
  attempt E w w1 f1 → attempt E w w2 f2 → w1 = w2 ∧ f1 = f2.
Proof.
  inversion 1 as [? ? Ht|? ? ? Ht Hh|? ? ? Ht Hh Hls|? ? ? ? Ht Hh Hls Hb
                 |? ? ? ? Ht Hh Hls Hb];
  inversion 1 as [? ? Ht'|? ? ? Ht' Hh'|? ? ? Ht' Hh' Hls'|? ? ? ? Ht' Hh' Hls' Hb'
                 |? ? ? ? Ht' Hh' Hls' Hb'];
  subst; rewrite Ht in Ht'; simplify_eq; try done;
  (rewrite Hh in Hh'; simplify_eq; try done);
  (rewrite Hls in Hls'; simplify_eq; try done);
  (rewrite Hb in Hb'; simplify_eq; done).
Qed.

Lemma connect_run_attempt (E : Env) w w1 f :
  isLocked (locker (this w)) = false →
  isConnected (this w) = false →
  attempt E w w1 f →
  run E (connect E) w = (concluded w1 f, Returned (client (this (concluded w1 f)))).
Proof.
  intros Hl Hc Hatt.
  destruct (connect_attempt E w Hl Hc) as (w1' & f' & Hatt' & ->).
  by destruct (attempt_functional E w w1 f w1' f' Hatt Hatt') as [-> ->].
Qed.

(** C10: when the attempt fails after the handshake has succeeded (the
    request for the tool list is rejected, or a wrapper cannot be
    built), connect() returns the handle it has just stored, not an
    absent one, although the manager is marked disconnected and the
    error is stored. *)
Theorem connect_failure_keeps_handle (E : Env) (w w1 : World) stage e :
  isLocked (locker (this w)) = false →
  isConnected (this w) = false →
  attempt E w w1 (Some (stage, e)) →
  stage = ToolListing ∨ stage = WrapperConstruction →
  ∃ w',
    run E (connect E) w = (w', Returned (Some (attemptClient w))) ∧
    client (this w') = Some (attemptClient w) ∧
    isConnected (this w') = false ∧
    error (this w') = Some e.
Proof.
  intros Hl Hc Hatt Hstage.
  exists (concluded w1 (Some (stage, e))).
  rewrite (connect_run_attempt E w w1 _ Hl Hc Hatt).
  inversion Hatt; subst; destruct Hstage; try discriminate; done.
Qed.

Lemma connect_failure_keeps_handle_witness :
  ∃ w',
    run Demo.mute (connect Demo.mute) Demo.fresh
      = (w', Returned (Some Demo.handle)) ∧
    isConnected (this w') = false ∧
    error (this w') = Some Demo.refused.
Proof.
  destruct (connect_failure_keeps_handle Demo.mute Demo.fresh
              (listing Demo.fresh (Demo.transport Demo.mute)
                 (record (EvNewTransport (Demo.transport Demo.mute))
                    (started Demo.fresh)))
              ToolListing Demo.refused)
    as (w' & Hrun & _ & Hc & He).
  - reflexivity.
  - reflexivity.
  - eapply attempt_listing; reflexivity.
  - by left.
  - exists w'. split_and!; done.
Defined.

(** ** The subprocess transport *)

Lemma run_createTransport_stdio (E : Env) w config :
  isMaybeStdioConfig E (serverConfig (this w)) = true →
  IS_MCP_SERVER_SSE_ONLY E = false →
  MCPStdioConfigZodSchema_parse (serverConfig (this w)) = inr config →
  let t := StdioClientTransport
             {| sp_command := stdio_command config;
                sp_args := stdio_args config;
                sp_env := stdioEnv (process_env E) (stdio_env config);
                sp_cwd := process_cwd E |} in
  run E (createTransport E) w =
    (record (EvNewTransport t) w,
     match transportFails E t with
     | Some e => Raised e
     | None => Returned t
     end).
Proof.
  intros Hstdio Hsse Hparse t.
  unfold createTransport, new_Transport. run_simpl.
  rewrite Hstdio, Hsse, run_bind, run_liftE, Hparse. cbn [andThen].
  rewrite run_bind. unfold emit at 1. cbn [run andThen]. fold t.
  by destruct (transportFails E t).
Qed.

(** C6: for a valid Stdio configuration, connect() constructs the
    subprocess transport -- and, unless the constructor throws, starts it
    with the handshake -- with the command and arguments of the
    configuration, the current directory of the process, and an
    environment that is the ambient one overlaid by the configuration's:
    a key of the configuration has the configuration's value, any other
    key has its ambient value, and a key whose ambient value is undefined
    is absent.  In particular PATH keeps its ambient value unless the
    configuration sets it.  The merge itself drops every key whose merged
    value is undefined, also one that the overlay sets to undefined. *)
Theorem stdio_environment (E : Env) (w : World) (config : MCPStdioConfig) :
  isLocked (locker (this w)) = false →
  isConnected (this w) = false →
  isMaybeStdioConfig E (serverConfig (this w)) = true →
  IS_MCP_SERVER_SSE_ONLY E = false →
  MCPStdioConfigZodSchema_parse (serverConfig (this w)) = inr config →
  ∃ p rest,
    trace (run E (connect E) w).1 =
      trace w ++ EvNewTransport (StdioClientTransport p) :: rest ∧
    (transportFails E (StdioClientTransport p) = None →
     ∃ rest', rest = EvRequest (ClientConnect (attemptClient w)
                                  (StdioClientTransport p)) :: rest') ∧
    sp_command p = stdio_command config ∧
    sp_args p = stdio_args config ∧
    sp_cwd p = process_cwd E ∧
    (∀ key, sp_env p !! key =
              match default ∅ (stdio_env config) !! key with
              | Some v => Some v
              | None => mjoin (process_env E !! key)
              end) ∧
    (∀ key, default ∅ (stdio_env config) !! key = None →
            process_env E !! key = Some None → sp_env p !! key = None) ∧
    (default ∅ (stdio_env config) !! "PATH" = None →
     sp_env p !! "PATH" = mjoin (process_env E !! "PATH")) ∧
    (∀ (ambient overlay : gmap string (option string)) key,
       definedEntries (spread ambient overlay) !! key =
         match overlay !! key with
         | Some value => value
         | None => mjoin (ambient !! key)
         end).
Proof.
  intros Hl Hc Hstdio Hsse Hparse.
  pose proof (run_createTransport_stdio E (started w) config Hstdio Hsse Hparse) as Ht.
  cbv zeta in Ht.
  set (p := {| sp_command := stdio_command config; sp_args := stdio_args config;
               sp_env := stdioEnv (process_env E) (stdio_env config);
               sp_cwd := process_cwd E |}) in *.
  assert (Henv : ∀ key, sp_env p !! key =
            match default ∅ (stdio_env config) !! key with
            | Some v => Some v
            | None => mjoin (process_env E !! key)
            end) by (intros key; apply stdioEnv_lookup).
  destruct (connect_attempt E w Hl Hc) as (w1 & f & Hatt & Hrun).
  exists p. rewrite Hrun. cbn [fst].
  assert (Htrace : ∃ rest,
    trace (concluded w1 f) = trace w ++ EvNewTransport (StdioClientTransport p) :: rest
    ∧ (transportFails E (StdioClientTransport p) = None →
       ∃ rest', rest = EvRequest (ClientConnect (attemptClient w)
                                    (StdioClientTransport p)) :: rest')).
  { inversion Hatt as [? ? Ht'|? ? ? Ht'|? ? ? Ht'|? ? ? ? Ht'|? ? ? ? Ht'];
      subst; rewrite Ht in Ht';
      destruct (transportFails E (StdioClientTransport p)) eqn:Hf;
      simplify_eq; unfold rearmed;
      repeat case_match; simpl; rewrite <- ?app_assoc; simpl;
      eexists; (split; [reflexivity|]); intros; simplify_eq; eauto. }
  destruct Htrace as (rest & Htr & Hspawn).
  exists rest. split_and!; try done.
  - intros key Hk Hu. by rewrite Henv, Hk, Hu.
  - intros Hk. by rewrite Henv, Hk.
  - intros ambient overlay key. rewrite definedEntries_lookup, spread_lookup.
    by destruct (overlay !! key).
Qed.

Lemma stdio_environment_witness :
  ∃ p rest,
    trace (run Demo.healthy (connect Demo.healthy) Demo.fresh).1 =
      EvNewTransport (StdioClientTransport p) :: rest ∧
    sp_cwd p = "/srv/app" ∧
    sp_env p !! "DEBUG" = Some "1" ∧
    sp_env p !! "PATH" = Some "/usr/bin" ∧
    sp_env p !! "EDITOR" = None.
Proof.
  destruct (stdio_environment Demo.healthy Demo.fresh
              {| stdio_command := "npx";
                 stdio_args := Some ["@playwright/mcp@latest"];
                 stdio_env := Some {[ "DEBUG" := "1" ]} |})
    as (p & rest & Htr & _ & _ & _ & Hcwd & Henv & _ & _ & _); try reflexivity.
  exists p, rest. split_and!.
  - exact Htr.
  - exact Hcwd.
  - rewrite Henv. reflexivity.
  - rewrite Henv. reflexivity.
  - rewrite Henv. reflexivity.
Defined.

(** ** Tool wrappers *)

Section Wrappers.

Variable E : Env.

Lemma foldl_addTool_failed e ts : foldl (addTool E) (inl e) ts = inl e.
Proof. induction ts; simpl; auto. Qed.

Lemma makeTool_target t wrapper : makeTool E t = inr wrapper → target wrapper = tool_name t.
Proof. unfold makeTool. destruct (wrapperFails E t); by intros [= <-]. Qed.

(** Every wrapper is stored under the name it calls, which is the name
    of a discovered tool, and every discovered tool has one. *)
Lemma foldl_addTool_spec ts : ∀ acc wrappers,
  foldl (addTool E) (inr acc) ts = inr wrappers →
  (∀ key wrapper, wrappers !! key = Some wrapper →
     acc !! key = Some wrapper ∨
     (target wrapper = key ∧ ∃ t, t ∈ ts ∧ tool_name t = key)) ∧
  (∀ t, t ∈ ts → is_Some (wrappers !! tool_name t)) ∧
  (∀ key, is_Some (acc !! key) → is_Some (wrappers !! key)).
Proof.
  induction ts as [|t ts IH]; intros acc wrappers Hfold; simpl in Hfold.
  - simplify_eq. split_and!; [by left| |done].
    intros t Ht. by apply elem_of_nil in Ht.
  - destruct (makeTool E t) as [e|wrapper] eqn:Hmk.
    { by rewrite foldl_addTool_failed in Hfold. }
    destruct (IH _ _ Hfold) as (Hin & Hall & Hmono). split_and!.
    + intros key w Hw. destruct (Hin key w Hw) as [Hacc|(Htg & t' & Ht' & Hn)].
      * destruct (decide (tool_name t = key)) as [<-|Hne].
        -- rewrite lookup_insert_eq in Hacc. simplify_eq. right.
           split; [by eapply makeTool_target|]. exists t. split; [left|done].
        -- rewrite lookup_insert_ne in Hacc by done. by left.
      * right. split; [done|]. exists t'. split; [by right|done].
    + intros t' [->|Ht']%elem_of_cons; [|by apply Hall].
      apply Hmono. rewrite lookup_insert_eq. by eexists.
    + intros key Hk. apply Hmono.
      destruct (decide (tool_name t = key)) as [<-|Hne].
      * rewrite lookup_insert_eq. by eexists.
      * by rewrite lookup_insert_ne.
Qed.

Lemma buildTools_spec ts wrappers :
  buildTools E ts = inr wrappers →
  (∀ key wrapper, wrappers !! key = Some wrapper →
     target wrapper = key ∧ ∃ t, t ∈ ts ∧ tool_name t = key) ∧
  (∀ t, t ∈ ts → is_Some (wrappers !! tool_name t)).
Proof.
  unfold buildTools. intros (Hin & Hall & _)%foldl_addTool_spec.
  split; [|done]. intros key w Hw.
  destruct (Hin key w Hw) as [Hemp|?]; [|done]. by rewrite lookup_empty in Hemp.
Qed.

End Wrappers.

(** C9: a tool wrapper built by connect() from the discovered tools is
    stored under the name of a discovered tool.  Invoked with a signal
    that is already aborted it throws the signal's reason at once: the
    world is left as it was, so callTool was not entered and no request
    was issued.  Invoked with a signal that is not aborted, or with
    none, it is callTool on its tool's name and the given parameters. *)
Theorem execute_checks_abort (E : Env) ts wrappers key wrapper params opts :
  buildTools E ts = inr wrappers →
  wrappers !! key = Some wrapper →
  (∃ t, t ∈ ts ∧ tool_name t = key) ∧
  match opts ≫= abortSignal with
  | Some signal =>
      if aborted signal then
        execute E wrapper params opts = Throw (reason signal) ∧
        ∀ w, run E (execute E wrapper params opts) w = (w, Raised (reason signal))
      else execute E wrapper params opts = callTool E key params
  | None => execute E wrapper params opts = callTool E key params
  end.
Proof.
  intros Hb Hw.
  destruct (buildTools_spec E ts wrappers Hb) as (Hin & _).
  destruct (Hin key wrapper Hw) as (Htg & Ht). split; [exact Ht|].
  unfold execute. rewrite Htg.
  destruct (opts ≫= abortSignal) as [signal|]; [|reflexivity].
  destruct (aborted signal); [|reflexivity].
  split; [reflexivity|]. intros w. reflexivity.
Qed.

Lemma execute_checks_abort_witness :
  ∃ wrapper,
    tools (this (run Demo.healthy (connect Demo.healthy) Demo.fresh).1) !! "echo"
      = Some wrapper ∧
    ∀ params w,
      run Demo.healthy
        (execute Demo.healthy wrapper params
           (Some {| abortSignal :=
                      Some {| aborted := true; reason := Error "aborted" |} |})) w
      = (w, Raised (Error "aborted")).
Proof.
  assert (Hb : buildTools Demo.healthy [Demo.echo]
               = inr (tools (this (run Demo.healthy (connect Demo.healthy)
                                     Demo.fresh).1)))
    by reflexivity.
  destruct (tools (this (run Demo.healthy (connect Demo.healthy) Demo.fresh).1)
              !! "echo") as [wrapper|] eqn:Hw; [|by vm_compute in Hw].
  exists wrapper. split; [reflexivity|]. intros params w.
  pose proof (execute_checks_abort Demo.healthy [Demo.echo] _ "echo" wrapper params
    (Some {| abortSignal := Some {| aborted := true; reason := Error "aborted" |} |})
    Hb Hw) as (_ & _ & Hrun).
  apply Hrun.
Defined.

(** ** callTool *)

Section CallTool.

Variable E : Env.

Lemma run_attempt {A} (p : Prog A) w :
  run E (TsSafe.attempt p) w =
    match run E p w with
    | (w', Returned v) => (w', Returned (inr v))
    | (w', Raised e) => (w', Returned (inl e))
    | (w', Suspended) => (w', Suspended)
    end.
Proof.
  unfold TsSafe.attempt. rewrite run_try_catch, run_bind.
  destruct (run E p w) as [w' [v|e|]]; reflexivity.
Qed.

Lemma run_ret {A} (a : A) w : run E (Ret a) w = (w, Returned a).
Proof. reflexivity. Qed.

Lemma run_throw {A} e w : run E (Throw e : Prog A) w = (w, Raised e).
Proof. reflexivity. Qed.

Lemma callTool_run toolName input w w1 oc :
  run E (connect E) (logged toolName w) = (w1, Returned oc) →
  run E (callTool E toolName input) w = called E toolName input w1 oc.
Proof.
  intros Hconn.
  unfold callTool, TsSafe.unwrap, TsSafe.ifFail, TsSafe.watch, TsSafe.ifOk,
    TsSafe.map, TsSafe.safe.
  repeat rewrite run_bind. rewrite run_attempt, run_log. cbn [andThen].
  rewrite run_attempt, run_bind. fold (logged toolName w). rewrite Hconn.
  cbn [andThen]. unfold called.
  destruct oc as [c|].
  - rewrite run_await_ClientCallTool. fold (calling c toolName input w1).
    destruct (settle E (ClientCallTool c toolName input) _)
      as [e|[[cs [[]|]]|]];
      repeat (run_simpl;
              rewrite ?run_attempt, ?run_scheduleAutoDisconnect, ?run_ret,
                ?run_throw;
              cbn [andThen orElse isNull]);
      reflexivity.
  - repeat (run_simpl; rewrite ?run_attempt, ?run_ret, ?run_throw;
            cbn [andThen orElse isNull]).
    reflexivity.
Qed.

End CallTool.

(** A [try]-wrapped link never throws: an exception of its body becomes
    the error of the chain. *)
Lemma ends_attempt {A} (Q : A → Prop) (X : JsError → Prop) (p : Prog A) :
  ends Q X p →
  ends (λ r, match r with inl e => X e | inr v => Q v end) (λ _, False)
    (TsSafe.attempt p).
Proof.
  intros Hp. unfold TsSafe.attempt.
  eapply ends_try_catch with (Y := X).
  - eapply ends_bind; [exact Hp|]. intros a Ha. exact Ha.
  - intros e He. exact He.
Qed.

Lemma ends_const {A} (Q : Prop) (p : Prog A) :
  Q → ends (λ _, Q) (λ _, True) p.
Proof. intros HQ. eapply ends_weaken; [| |apply ends_any]; auto. Qed.

Section Links.

Context {A : Type}.

(** The value that passes an [ifOk] link is one on which its effect
    returned. *)
Lemma ends_ifOk {B} (P Q : A → Prop) (f : A → Prog B) (c : TsSafe.Chain A) :
  ends (λ r, match r with inl _ => True | inr v => P v end) (λ _, False) c →
  (∀ v, P v → ends (λ _, Q v) (λ _, True) (f v)) →
  ends (λ r, match r with inl _ => True | inr v => Q v end) (λ _, False)
    (TsSafe.ifOk f c).
Proof.
  intros Hc Hf. unfold TsSafe.ifOk. eapply ends_bind; [exact Hc|].
  intros [e|v] Hv; [done|].
  apply (ends_attempt Q (λ _, True)).
  eapply ends_bind; [exact (Hf v Hv)|]. intros b Hq. exact Hq.
Qed.

(** A [watch] link passes the state of the chain on. *)
Lemma ends_watch (P : JsError + A → Prop) (f : JsError + A → Prog unit)
    (c : TsSafe.Chain A) :
  ends P (λ _, False) c → ends P (λ _, False) (TsSafe.watch f c).
Proof.
  intros Hc. unfold TsSafe.watch. eapply ends_bind; [exact Hc|].
  intros r Hr. eapply ends_bind with (P := λ _, True).
  - eapply ends_try_catch; [apply ends_any|]. by intros e _.
  - intros u Hu. exact Hr.
Qed.

(** After an [ifFail] link whose handler does not throw, the chain
    holds a value. *)
Lemma ends_ifFail (P Q : A → Prop) (f : JsError → Prog A) (c : TsSafe.Chain A) :
  ends (λ r, match r with inl _ => True | inr v => P v end) (λ _, False) c →
  (∀ v, P v → Q v) →
  (∀ e, ends Q (λ _, False) (f e)) →
  ends (λ r, match r with inl _ => False | inr v => Q v end) (λ _, False)
    (TsSafe.ifFail f c).
Proof.
  intros Hc HPQ Hf. unfold TsSafe.ifFail. eapply ends_bind; [exact Hc|].
  intros [e|v] Hv; [|by apply HPQ].
  apply (ends_attempt Q (λ _, False)), Hf.
Qed.

Lemma ends_unwrap (Q : A → Prop) (c : TsSafe.Chain A) :
  ends (λ r, match r with inl _ => False | inr v => Q v end) (λ _, False) c →
  ends Q (λ _, False) (TsSafe.unwrap c).
Proof.
  intros Hc. unfold TsSafe.unwrap. eapply ends_bind; [exact Hc|].
  by intros [e|v] Hv.
Qed.

End Links.

(** callTool never throws and never returns null, however its requests
    are settled and whatever other tasks do to the manager meanwhile. *)
Lemma callTool_ends (E : Env) toolName input :
  ends is_Some (λ _, False) (callTool E toolName input).
Proof.
  unfold callTool.
  apply ends_unwrap, (ends_ifFail is_Some); [|done|by eexists].
  apply ends_watch.
  apply (ends_ifOk is_Some); [|by intros; apply ends_const].
  apply (ends_ifOk (λ _, True)).
  - unfold TsSafe.map, TsSafe.safe.
    eapply ends_bind; [apply (ends_attempt (λ _, True) (λ _, True)), ends_any|].
    intros [e|[]] _; [done|].
    eapply ends_weaken; [| |apply (ends_attempt (λ _, True) (λ _, True)), ends_any];
      [by intros []|done].
  - intros [r|] _; simpl; [by eexists|done].
Qed.

(** The claim C2 as it is stated fails where it says that a failure of
    the implicit connect yields an isError result: on a server that
    completes the handshake and rejects the request for its tools,
    connect() fails (the error is stored, the manager is disconnected)
    and yet callTool returns the server's answer, which is no error. *)
Lemma callTool_after_failed_connect :
  error (this (run Demo.mute (callTool Demo.mute "echo" Demo.text) Demo.fresh).1)
    = Some Demo.refused ∧
  isConnected (this (run Demo.mute (callTool Demo.mute "echo" Demo.text) Demo.fresh).1)
    = false ∧
  (run Demo.mute (callTool Demo.mute "echo" Demo.text) Demo.fresh).2
    = Returned (Some Demo.hi) ∧
  isError Demo.hi ≠ Some true.
Proof. vm_compute. split_and!; done. Qed.

(** C2, amended: callTool never throws and never returns null.  It
    first calls connect(); what it returns is decided by the handle
    connect() returns and by the answer to the request: without a handle
    (connect() failed before a handle was stored) an isError result for
    the null response; on a rejected request an isError result for the
    rejection; on an empty response an isError result; otherwise the
    remote result itself, which may report an error of the tool.  An
    isError result has isError set and one text item as its content. *)
Theorem callTool_never_raises (E : Env) toolName input (w w1 : World) oc :
  run E (connect E) (logged toolName w) = (w1, Returned oc) →
  ends is_Some (λ _, False) (callTool E toolName input) ∧
  (∃ w2 r,
     run E (callTool E toolName input) w = (w2, Returned (Some r)) ∧
     match oc with
     | None => r = errorResult E (Error "Tool call failed with null")
     | Some c =>
         match settle E (ClientCallTool c toolName input)
                 (trace (calling c toolName input w1)) with
         | inl e => r = errorResult E e
         | inr None => r = errorResult E (Error "Tool call failed with null")
         | inr (Some remote) => r = remote
         end
     end) ∧
  (∀ e, isError (errorResult E e) = Some true ∧
        ∃ text, content (errorResult E e)
                = [ {| content_type := "text"; content_text := text |} ]).
Proof.
  intros Hconn. split; [apply callTool_ends|]. split.
  - rewrite (callTool_run E toolName input w w1 oc Hconn). unfold called.
    destruct oc as [c|]; [|by eexists _, _].
    destruct (settle E (ClientCallTool c toolName input) _) as [e|[r|]];
      by eexists _, _.
  - intros e. split; [reflexivity|]. by eexists.
Qed.

Lemma callTool_never_raises_witness :
  ∃ w2,
    run Demo.policy (callTool Demo.policy "echo" Demo.text) Demo.fresh
    = (w2, Returned (Some (errorResult Demo.policy
                             (Error "Tool call failed with null")))).
Proof.
  destruct (callTool_never_raises Demo.policy "echo" Demo.text Demo.fresh
              (run Demo.policy (connect Demo.policy) (logged "echo" Demo.fresh)).1
              None)
    as (_ & (w2 & r & Hrun & ->) & _); [reflexivity|].
  by exists w2.
Defined.

(** ** The idle timer *)

(** The claim C4 as it is stated fails for a call that fails at the
    transport: on a connected manager with a 30 second idle timeout,
    a tool call whose request is rejected returns an isError result and
    leaves the scheduler exactly as it was. *)
Lemma callTool_rejected_not_rearmed :
  isConnected (this (Demo.connected Demo.broken)) = true ∧
  autoDisconnectSeconds (options (this (Demo.connected Demo.broken))) = Some 30 ∧
  (run Demo.broken (callTool Demo.broken "echo" Demo.text)
     (Demo.connected Demo.broken)).2
    = Returned (Some (errorResult Demo.broken Demo.refused)) ∧
  disconnectDebounce
    (this (run Demo.broken (callTool Demo.broken "echo" Demo.text)
             (Demo.connected Demo.broken)).1)
    = disconnectDebounce (this (Demo.connected Demo.broken)) ∧
  armed (disconnectDebounce
           (this (run Demo.broken (callTool Demo.broken "echo" Demo.text)
                    (Demo.connected Demo.broken)).1)) = 1%nat.
Proof. vm_compute. split_and!; done. Qed.

(** Nothing changes the options a manager was constructed with. *)
Lemma attempt_options (E : Env) w w1 f :
  attempt E w w1 f → options (this w1) = options (this w).
Proof.
  inversion 1 as [? ? Ht|? ? ? Ht|? ? ? Ht|? ? ? ? Ht|? ? ? ? Ht]; subst;
    apply createTransport_this in Ht; unfold rearmed; simpl;
    repeat case_match; simpl; by rewrite Ht.
Qed.

Lemma connect_options (E : Env) w w1 o :
  run E (connect E) w = (w1, o) → options (this w1) = options (this w).
Proof.
  destruct (isLocked (locker (this w))) eqn:Hl.
  { unfold connect. simpl. rewrite Hl. simpl. rewrite Hl. by intros [= <- _]. }
  destruct (isConnected (this w)) eqn:Hc.
  { unfold connect. simpl. rewrite Hl, Hc. by intros [= <- _]. }
  destruct (connect_attempt E w Hl Hc) as (w1' & f & Hatt & ->).
  intros [= <- _]. apply attempt_options in Hatt.
  destruct f as [[]|]; simpl; exact Hatt.
Qed.

(** C4, amended: with an idle timeout configured, a tool call that
    gets a response from the server -- a result, or an error reported by
    the tool -- arms the idle-disconnect scheduler anew when it
    completes: the one slot holds the new delay, whatever was pending
    before.  A call whose request is rejected or answered with nothing
    leaves the scheduler as connect() left it. *)
Theorem callTool_rearms_on_response (E : Env) toolName input (w w1 : World) c secs :
  autoDisconnectSeconds (options (this w)) = Some secs →
  secs ≠ 0 →
  run E (connect E) (logged toolName w) = (w1, Returned (Some c)) →
  let w2 := (run E (callTool E toolName input) w).1 in
  match settle E (ClientCallTool c toolName input)
          (trace (calling c toolName input w1)) with
  | inr (Some _) =>
      disconnectDebounce (this w2)
        = debounce (disconnectDebounce (this w1)) (secs * 1000) ∧
      pending (disconnectDebounce (this w2)) = Some (secs * 1000) ∧
      armed (disconnectDebounce (this w2)) = S (armed (disconnectDebounce (this w1)))
  | _ => disconnectDebounce (this w2) = disconnectDebounce (this w1)
  end.
Proof.
  intros Hsecs Hnz Hconn w2. subst w2.
  rewrite (callTool_run E toolName input w w1 (Some c) Hconn). unfold called.
  apply connect_options in Hconn. simpl in Hconn. rewrite <- Hconn in Hsecs.
  destruct (settle E (ClientCallTool c toolName input) _) as [e|[r|]];
    [done| |done].
  cbn [fst]. unfold observed, rearmed. simpl. rewrite Hsecs.
  destruct (decide (secs = 0)); [done|].
  destruct (isError r) as [[]|]; done.
Qed.

Lemma callTool_rearms_on_response_witness :
  pending (disconnectDebounce
             (this (run Demo.healthy (callTool Demo.healthy "echo" Demo.text)
                      (Demo.connected Demo.healthy)).1)) = Some 30000 ∧
  armed (disconnectDebounce
           (this (run Demo.healthy (callTool Demo.healthy "echo" Demo.text)
                    (Demo.connected Demo.healthy)).1)) = 2%nat.
Proof.
  pose proof (callTool_rearms_on_response Demo.healthy "echo" Demo.text
                (Demo.connected Demo.healthy)
                (logged "echo" (Demo.connected Demo.healthy))
                Demo.handle 30) as H.
  destruct H as (_ & Hp & Ha); [reflexivity|done|reflexivity|].
  split; [exact Hp|exact Ha].
Defined.

(** ** disconnect *)

Section Disconnect.

Variable E : Env.

Lemma segment_disconnect w :
  segment disconnect w =
    (record (EvLog info [LStr "Disconnecting from MCP server"]) w,
     Await LockerWait (λ _, release)).
Proof. reflexivity. Qed.

(** From its call to its return, an attempt holds the lock at every
    suspension point, and it returns with the lock released. *)
Lemma connect_called w :
  isLocked (locker (this w)) = false →
  isConnected (this w) = false →
  (isLocked (locker (this (segment (connect E) w).1)) = false ∧
   ∃ v, (segment (connect E) w).2 = Ret v) ∨
  (isLocked (locker (this (segment (connect E) w).1)) = true ∧
   holdsLock (segment (connect E) w).2).
Proof.
  intros Hl Hc.
  assert (Hrest : ∀ (c : Client) (t : Transport) (w0 : World),
    isLocked (locker (this w0)) = true →
    holdsLock (segment
      (try_catch
         (await (ClientConnect c t);;
          log info [LStr "Connected to MCP server"];;
          modify (set_isConnected true);;
          modify (set_error None);;
          modify (set_client (Some c));;
          toolResponse ← await (ClientListTools c);
          modify (set_toolInfo (toToolInfo <$> toolResponse));;
          wrappers ← liftE (buildTools E toolResponse);
          modify (set_tools wrappers);;
          scheduleAutoDisconnect) connect_catch;;
       modify (λ m, set_locker (unlock (locker m)) m);;
       gets client) w0).2).
  { intros c t w0 Hw0. cbn. constructor; [done|].
    intros [e|[]] w' Hw'; cbn; [left; eauto|].
    right. rewrite Hw'. split; [done|]. constructor; [done|].
    intros [e|ts] w'' Hw''; cbn; [left; eauto|].
    destruct (buildTools E ts); cbn; [left; eauto|].
    destruct (autoDisconnectSeconds _) as [secs|]; cbn; [|left; eauto].
    destruct (decide (secs = 0)); cbn; left; eauto. }
  unfold connect, connect_try, createTransport, new_Transport. cbn.
  rewrite Hl, Hc. cbn.
  destruct (isMaybeStdioConfig E _);
    [destruct (IS_MCP_SERVER_SSE_ONLY E)|destruct (isMaybeSseConfig E _)]; cbn;
    try (left; eauto; fail).
  - destruct (MCPStdioConfigZodSchema_parse _); cbn; [left; eauto|].
    destruct (transportFails E _); cbn; [left; eauto|].
    right. split; [done|]. exact (Hrest _ _ (started w) eq_refl).
  - destruct (MCPSseConfigZodSchema_parse _ _); cbn; [left; eauto|].
    destruct (transportFails E _); cbn; [left; eauto|].
    right. split; [done|]. exact (Hrest _ _ (started w) eq_refl).
Qed.

Lemma racing_bothCalled w :
  isLocked (locker (this w)) = false →
  isConnected (this w) = false →
  racing (bothCalled E w).
Proof.
  intros Hl Hc. unfold bothCalled. rewrite segment_disconnect. cbn [fst snd].
  destruct (connect_called w Hl Hc) as [(Hu & v & Hv)|(Hk & Hh)].
  - by eapply racing_returned.
  - by apply racing_attempt.
Qed.

Lemma racing_turn r t : racing r → racing (turn E r t).
Proof.
  destruct r as [w p q].
  intros [Hq Hk Hp|v Hq Hu Hp|v Hp Hc Hcl Hq]; simpl in *; subst.
  - (* the attempt is in flight *)
    destruct t; simpl; [|rewrite Hk; by apply racing_attempt].
    destruct Hp as [a k Ha Hstep]. simpl.
    assert (Hb : blocked a w = false) by by destruct a.
    rewrite Hb.
    destruct (segment (k (respond E a (trace w))) w) as [w' p'] eqn:Hs.
    specialize (Hstep (respond E a (trace w)) w Hk). rewrite Hs in Hstep.
    destruct Hstep as [(Hu & v & Hv)|(Hk' & Hh)]; simpl in *.
    + by eapply racing_returned.
    + by apply racing_attempt.
  - (* connect has returned, disconnect still waits *)
    destruct t; simpl; [by eapply racing_returned|].
    rewrite Hu. unfold release. cbn.
    destruct (client (this w)) as [c|]; cbn.
    + apply (racing_released _ v); simpl; [done|done|done|].
      right. exists (ClientClose c). eexists. split; [reflexivity|]. split; [done|].
      intros [e|[]] w'; cbn; done.
    + apply (racing_released _ v); simpl; [done|done|done|]. by left.
  - (* disconnect is past its wait *)
    destruct t; simpl; [by eapply racing_released|].
    destruct Hq as [->|(a & k & -> & Ha & Hk)]; simpl.
    { eapply racing_released; simpl; try done. by left. }
    assert (Hb : blocked a w = false) by by destruct a.
    rewrite Hb.
    destruct (Hk (respond E a (trace w)) w) as [Hret Hthis].
    destruct (segment (k (respond E a (trace w))) w) as [w' q'] eqn:Hs.
    simpl in *. subst q'.
    eapply racing_released; simpl; rewrite ?Hthis; try done. by left.
Qed.

Lemma racing_race schedule : ∀ r, racing r → racing (race E schedule r).
Proof.
  induction schedule as [|t schedule IH]; intros r Hr; simpl; [done|].
  apply IH. by apply racing_turn.
Qed.

Lemma run_release w :
  ∃ w',
    run E release w = (w', Returned tt) ∧
    isConnected (this w') = false ∧
    client (this w') = None ∧
    toolInfo (this w') = toolInfo (this w) ∧
    trace w' =
      trace w ++
      match client (this w) with
      | Some c =>
          EvRequest (ClientClose c) ::
          match settle E (ClientClose c) (trace w ++ [EvRequest (ClientClose c)]) with
          | inl e => [EvLog error_level [LErr e]]
          | inr _ => []
          end
      | None => []
      end.
Proof.
  unfold release. run_simpl.
  destruct (client (this w)) as [c|] eqn:Hc; simpl; rewrite Hc.
  - run_simpl. simpl.
    destruct (settle E (ClientClose c) _) as [e|[]]; simpl;
      eexists; split_and!; try done; simpl; by rewrite <- ?app_assoc.
  - eexists. split_and!; try done. simpl. by rewrite app_nil_r.
Qed.

Lemma never_throws_disconnect : never_throws disconnect.
Proof.
  unfold disconnect.
  apply never_throws_bind; [auto with throws|]. intros _.
  apply never_throws_bind; [by intros r|]. intros _.
  apply never_throws_bind; [auto with throws|]. intros _.
  apply never_throws_bind; [auto with throws|]. intros c.
  apply never_throws_bind; [auto with throws|]. intros _.
  destruct c as [c|]; [|done].
  apply never_throws_try_catch. auto with throws.
Qed.

End Disconnect.

Lemma run_locker_wait (E : Env) w :
  run E locker_wait w =
    if isLocked (locker (this w)) then (w, Suspended) else (w, Returned tt).
Proof. unfold locker_wait. simpl. by destruct (isLocked (locker (this w))). Qed.

(** disconnect(), alone. *)
Lemma run_disconnect (E : Env) w :
  if isLocked (locker (this w)) then
    run E disconnect w =
      (record (EvLog info [LStr "Disconnecting from MCP server"]) w, Suspended)
  else
    ∃ w',
      run E disconnect w = (w', Returned tt) ∧
      isConnected (this w') = false ∧
      client (this w') = None ∧
      toolInfo (this w') = toolInfo (this w) ∧
      trace w' =
        (trace w ++ [EvLog info [LStr "Disconnecting from MCP server"]]) ++
        match client (this w) with
        | Some c =>
            EvRequest (ClientClose c) ::
            match settle E (ClientClose c)
                    ((trace w ++ [EvLog info [LStr "Disconnecting from MCP server"]])
                     ++ [EvRequest (ClientClose c)]) with
            | inl e => [EvLog error_level [LErr e]]
            | inr _ => []
            end
        | None => []
        end.
Proof.
  unfold disconnect. rewrite run_bind, run_log. cbn [andThen].
  rewrite run_bind, run_locker_wait. cbn [record this].
  destruct (isLocked (locker (this w))) eqn:Hl; cbn [andThen]; [done|].
  destruct (run_release E (record (EvLog info [LStr "Disconnecting from MCP server"]) w))
    as (w' & Hrun & Hc & Hcl & Hti & Htr).
  exists w'. split; [exact Hrun|]. split; [exact Hc|]. split; [exact Hcl|].
  split; [exact Hti|exact Htr].
Qed.

Lemma closes_snoc tr ev :
  closes (tr ++ [ev]) =
    closes tr ++ match ev with
                 | EvRequest (ClientClose c) => [c]
                 | _ => []
                 end.
Proof.
  induction tr as [|ev' tr IH]; simpl.
  - destruct ev as [|[]|]; reflexivity.
  - destruct ev' as [|[]|]; simpl; by rewrite IH.
Qed.

(** From its call to its return, an attempt asks no handle to close,
    holds the lock at every suspension point, and returns the handle
    field with the lock released. *)
Lemma connect_establishing (E : Env) w :
  isLocked (locker (this w)) = false →
  isConnected (this w) = false →
  (isLocked (locker (this (segment (connect E) w).1)) = false ∧
   closes (trace (segment (connect E) w).1) = closes (trace w) ∧
   (segment (connect E) w).2 = Ret (client (this (segment (connect E) w).1))) ∨
  (isLocked (locker (this (segment (connect E) w).1)) = true ∧
   closes (trace (segment (connect E) w).1) = closes (trace w) ∧
   establishing (closes (trace w)) (segment (connect E) w).2).
Proof.
  intros Hl Hc.
  assert (Hrest : ∀ cs (c : Client) (t : Transport) (w0 : World),
    establishing cs (segment
      (try_catch
         (await (ClientConnect c t);;
          log info [LStr "Connected to MCP server"];;
          modify (set_isConnected true);;
          modify (set_error None);;
          modify (set_client (Some c));;
          toolResponse ← await (ClientListTools c);
          modify (set_toolInfo (toToolInfo <$> toolResponse));;
          wrappers ← liftE (buildTools E toolResponse);
          modify (set_tools wrappers);;
          scheduleAutoDisconnect) connect_catch;;
       modify (λ m, set_locker (unlock (locker m)) m);;
       gets client) w0).2).
  { intros cs c t w0. cbn. constructor; [done|].
    intros [e|[]] w' Hw' Hcs; cbn.
    { left. rewrite closes_snoc, app_nil_r. by split_and!. }
    right. rewrite Hw', !closes_snoc, !app_nil_r.
    split; [done|]. split; [done|]. constructor; [done|].
    intros [e|ts] w'' Hw'' Hcs'; cbn.
    { left. rewrite closes_snoc, app_nil_r. by split_and!. }
    destruct (buildTools E ts); cbn.
    { left. rewrite closes_snoc, app_nil_r. by split_and!. }
    destruct (autoDisconnectSeconds _) as [secs|]; cbn; [|left; by split_and!].
    destruct (decide (secs = 0)); cbn; left; by split_and!. }
  unfold connect, connect_try, createTransport, new_Transport. cbn.
  rewrite Hl, Hc. cbn.
  destruct (isMaybeStdioConfig E _);
    [destruct (IS_MCP_SERVER_SSE_ONLY E)|destruct (isMaybeSseConfig E _)]; cbn;
    try (left; rewrite closes_snoc, app_nil_r; by split_and!).
  - destruct (MCPStdioConfigZodSchema_parse _); cbn;
      [left; rewrite closes_snoc, app_nil_r; by split_and!|].
    destruct (transportFails E _); cbn;
      [left; rewrite !closes_snoc, !app_nil_r; by split_and!|].
    right. rewrite !closes_snoc, !app_nil_r. split; [done|]. split; [done|].
    exact (Hrest _ _ _ (started w)).
  - destruct (MCPSseConfigZodSchema_parse _ _); cbn;
      [left; rewrite closes_snoc, app_nil_r; by split_and!|].
    destruct (transportFails E _); cbn;
      [left; rewrite !closes_snoc, !app_nil_r; by split_and!|].
    right. rewrite !closes_snoc, !app_nil_r. split; [done|]. split; [done|].
    exact (Hrest _ _ _ (started w)).
Qed.

Lemma closes_released (E : Env) w :
  closes (trace (released E w)) =
    closes (trace w) ++ match client (this w) with Some c => [c] | None => [] end.
Proof.
  unfold released. destruct (client (this w)) as [c|]; simpl.
  - destruct (settle E (ClientClose c) _); simpl;
      rewrite ?closes_snoc, ?app_nil_r; done.
  - by rewrite app_nil_r.
Qed.

Lemma released_fields (E : Env) w :
  isConnected (this (released E w)) = false ∧ client (this (released E w)) = None.
Proof.
  unfold released. destruct (client (this w)) as [c|]; [|done].
  by destruct (settle E (ClientClose c) _).
Qed.

Section Meeting.

Variable E : Env.

Lemma meeting_bothCalled w :
  isLocked (locker (this w)) = false →
  isConnected (this w) = false →
  meeting E (closes (trace w)) (bothCalled E w).
Proof.
  intros Hl Hc. unfold bothCalled. rewrite segment_disconnect. cbn [fst snd].
  destruct (connect_establishing E w Hl Hc) as [(Hu & Hcs & Hv)|(Hk & Hcs & Hh)].
  - apply meeting_returned; simpl; [done|done| |done].
    by rewrite closes_snoc, app_nil_r.
  - apply meeting_attempt; simpl; [done|done| |done].
    by rewrite closes_snoc, app_nil_r.
Qed.

Lemma meeting_turn cs r t : meeting E cs r → meeting E cs (turn E r t).
Proof.
  destruct r as [w p q].
  intros [Hq Hk Hcs Hp|Hq Hu Hcs Hp|w1 c Hcs Hcl Hp Hw Hq|w1 Hcs Hp Hw Hq];
    simpl in *; subst.
  - (* the attempt is in flight *)
    destruct t; simpl; [|rewrite Hk; by apply meeting_attempt].
    destruct Hp as [a k Ha Hstep]. simpl.
    assert (Hb : blocked a w = false) by by destruct a.
    rewrite Hb.
    specialize (Hstep (respond E a (trace w)) w Hk eq_refl).
    destruct (segment (k (respond E a (trace w))) w) as [w' p'] eqn:Hs.
    destruct Hstep as [(Hu & Hcs & Hv)|(Hk' & Hcs & Hh)]; simpl in *.
    + by apply meeting_returned.
    + by apply meeting_attempt.
  - (* connect() has returned, disconnect() resumes *)
    destruct t; simpl; [by apply meeting_returned|].
    rewrite Hu. unfold release. cbn.
    destruct (client (this w)) as [c|] eqn:Hcl; cbn.
    + by apply (meeting_closing _ _ _ w c).
    + apply (meeting_done _ _ _ w); simpl; [done|by rewrite Hcl| |done].
      unfold released. by rewrite Hcl.
  - (* the close is settled *)
    destruct t; simpl; [by apply (meeting_closing _ _ _ w1 c)|].
    apply (meeting_done _ _ _ w1); [done| | |];
      unfold released; rewrite ?Hcl; cbn [trace record];
      by destruct (settle E (ClientClose c) _) as [e|[]].
  - (* both have returned *)
    destruct t; simpl; by apply (meeting_done _ _ _ w1).
Qed.

Lemma meeting_race cs schedule : ∀ r, meeting E cs r → meeting E cs (race E schedule r).
Proof.
  induction schedule as [|t schedule IH]; intros r Hr; simpl; [done|].
  apply IH. by apply meeting_turn.
Qed.

End Meeting.

(** C8: disconnect() never throws.  Called while the lock is held it
    only logs and stays suspended on the locker.  With the lock free it
    marks the manager disconnected, clears the handle field, asks the
    handle it found there to close, logs a failure to close, and
    returns.  Called while a connect() is in flight, under every
    schedule: it is still at its wait as long as that connect() has not
    returned, and no handle is asked to close meanwhile; neither of the
    two throws; as soon as it is past its wait, exactly the handle that
    connect() returned has been asked to close (none if connect()
    returned none); and once it has returned, the manager is
    disconnected and has no handle, and the world is the one its release
    leaves of the world in which connect() returned -- the close
    requested on the handle stored there, a rejection of the close
    logged. *)
Theorem disconnect_waits_then_releases (E : Env) (w w0 : World)
    (schedule : list Turn) :
  isLocked (locker (this w0)) = false →
  isConnected (this w0) = false →
  never_throws disconnect ∧
  (if isLocked (locker (this w)) then
     run E disconnect w =
       (record (EvLog info [LStr "Disconnecting from MCP server"]) w, Suspended)
   else
     ∃ w',
       run E disconnect w = (w', Returned tt) ∧
       isConnected (this w') = false ∧
       client (this w') = None ∧
       trace w' =
         (trace w ++ [EvLog info [LStr "Disconnecting from MCP server"]]) ++
         match client (this w) with
         | Some c =>
             EvRequest (ClientClose c) ::
             match settle E (ClientClose c)
                     ((trace w ++ [EvLog info [LStr "Disconnecting from MCP server"]])
                      ++ [EvRequest (ClientClose c)]) with
             | inl e => [EvLog error_level [LErr e]]
             | inr _ => []
             end
         | None => []
         end) ∧
  ((disconnecting (race E schedule (bothCalled E w0))
      = disconnecting (bothCalled E w0) ∨
    ∃ v, connecting (race E schedule (bothCalled E w0)) = Ret v) ∧
   (∀ e, connecting (race E schedule (bothCalled E w0)) ≠ Throw e ∧
         disconnecting (race E schedule (bothCalled E w0)) ≠ Throw e) ∧
   (disconnecting (race E schedule (bothCalled E w0)) = Ret tt →
    isConnected (this (world (race E schedule (bothCalled E w0)))) = false ∧
    client (this (world (race E schedule (bothCalled E w0)))) = None)) ∧
  (disconnecting (race E schedule (bothCalled E w0))
     = disconnecting (bothCalled E w0) →
   closes (trace (world (race E schedule (bothCalled E w0)))) = closes (trace w0)) ∧
  (disconnecting (race E schedule (bothCalled E w0))
     ≠ disconnecting (bothCalled E w0) →
   ∃ v,
     connecting (race E schedule (bothCalled E w0)) = Ret v ∧
     closes (trace (world (race E schedule (bothCalled E w0)))) =
       closes (trace w0) ++ match v with Some c => [c] | None => [] end) ∧
  (disconnecting (race E schedule (bothCalled E w0)) = Ret tt →
   ∃ w1,
     connecting (race E schedule (bothCalled E w0)) = Ret (client (this w1)) ∧
     closes (trace w1) = closes (trace w0) ∧
     world (race E schedule (bothCalled E w0)) = released E w1).
Proof.
  intros Hl0 Hc0. split; [apply never_throws_disconnect|]. split.
  { pose proof (run_disconnect E w) as Hsolo.
    destruct (isLocked (locker (this w))); [exact Hsolo|].
    destruct Hsolo as (w' & Hrun & Hc & Hcl & _ & Htr).
    exists w'. split; [exact Hrun|]. split; [exact Hc|]. split; [exact Hcl|].
    exact Htr. }
  split.
  { pose proof (racing_race E schedule _ (racing_bothCalled E w0 Hl0 Hc0)) as Hr.
    unfold bothCalled at 2. rewrite segment_disconnect. cbn [disconnecting snd].
    destruct Hr as [Hq Hk Hp|v Hq Hu Hp|v Hp Hc Hcl Hq].
    + rewrite Hq. split; [by left|]. split; [|done].
      intros e. split; [|done]. by destruct Hp.
    + rewrite Hq, Hp. split; [by left|]. split; [|done]. done.
    + rewrite Hp. split; [right; by eexists|]. split; [|done].
      intros e. split; [done|].
      by destruct Hq as [->|(a & k & -> & _)]. }
  pose proof (meeting_race E _ schedule _ (meeting_bothCalled E w0 Hl0 Hc0)) as Hm.
  unfold bothCalled at 2 4. rewrite segment_disconnect. cbn [disconnecting snd].
  destruct Hm as [Hq Hk Hcs Hp|Hq Hu Hcs Hp|w1 c Hcs Hcl Hp Hw Hq|w1 Hcs Hp Hw Hq].
  - rewrite Hq. split; [done|]. split; [done|]. done.
  - rewrite Hq. split; [done|]. split; [done|]. done.
  - rewrite Hq, Hp, Hw. split; [intros H; inversion H|]. split; [|done].
    intros _. exists (Some c). split; [done|].
    cbn [trace record upd]. by rewrite closes_snoc, Hcs.
  - rewrite Hq, Hp, Hw. split; [done|]. split.
    + intros _. eexists. split; [done|]. by rewrite closes_released, Hcs.
    + intros _. by exists w1.
Qed.

Lemma disconnect_waits_then_releases_witness :
  (run Demo.healthy disconnect (Demo.connected Demo.healthy)).2 = Returned tt ∧
  disconnecting
    (race Demo.healthy [DisconnectTurn; ConnectTurn; DisconnectTurn]
       (bothCalled Demo.healthy Demo.fresh))
    = disconnecting (bothCalled Demo.healthy Demo.fresh) ∧
  isConnected
    (this (world (race Demo.healthy
                    [DisconnectTurn; ConnectTurn; ConnectTurn; DisconnectTurn;
                     DisconnectTurn]
                    (bothCalled Demo.healthy Demo.fresh)))) = false ∧
  closes
    (trace (world (race Demo.healthy
                     [DisconnectTurn; ConnectTurn; ConnectTurn; DisconnectTurn;
                      DisconnectTurn]
                     (bothCalled Demo.healthy Demo.fresh)))) = [Demo.handle].
Proof.
  split; [reflexivity|]. split; [reflexivity|].
  pose proof (disconnect_waits_then_releases Demo.healthy
                (Demo.connected Demo.healthy) Demo.fresh
                [DisconnectTurn; ConnectTurn; ConnectTurn; DisconnectTurn;
                 DisconnectTurn]) as H.
  destruct H as (_ & _ & (_ & _ & Hdone) & _ & Hpast & _);
    [reflexivity|reflexivity|].
  split; [apply Hdone; reflexivity|].
  destruct Hpast as (v & Hv & Hcloses); [discriminate|].
  rewrite Hcloses. injection Hv as <-. reflexivity.
Defined.

(** ** The list of tools *)

(** The claim C3 as it is stated fails for disconnect(): on a manager
    connected to a server with one tool, disconnect() returns, the
    manager is disconnected, and toolInfo still lists the tool. *)
Lemma disconnect_keeps_toolInfo :
  isConnected (this (Demo.connected Demo.healthy)) = true ∧
  (run Demo.healthy disconnect (Demo.connected Demo.healthy)).2 = Returned tt ∧
  isConnected (this (run Demo.healthy disconnect (Demo.connected Demo.healthy)).1)
    = false ∧
  toolInfo (this (run Demo.healthy disconnect (Demo.connected Demo.healthy)).1)
    = [toToolInfo Demo.echo].
Proof. vm_compute. split_and!; done. Qed.

(** C3, amended: toolInfo is assigned only by a connect() whose
    handshake has succeeded (so that the manager was marked connected)
    and whose request for the tool list was answered: it then holds the
    answer, also when building the wrappers fails afterwards.  A
    connect() that fails earlier or does not make an attempt,
    disconnect(), and callTool after its connect() leave toolInfo as it
    is; so disconnect() on a connected manager does not empty it. *)
Theorem toolInfo_set_by_listing (E : Env) (w : World) :
  isLocked (locker (this w)) = false →
  toolInfo (this (run E disconnect w).1) = toolInfo (this w) ∧
  isConnected (this (run E disconnect w).1) = false ∧
  (∀ toolName input w1 oc,
     run E (connect E) (logged toolName w) = (w1, Returned oc) →
     toolInfo (this (run E (callTool E toolName input) w).1) = toolInfo (this w1)) ∧
  (if isConnected (this w) then
     toolInfo (this (run E (connect E) w).1) = toolInfo (this w)
   else
     ∃ w1 f,
       attempt E w w1 f ∧
       (f = None ↔ isConnected (this (run E (connect E) w).1) = true) ∧
       match f with
       | Some (WrapperConstruction, _) | None =>
           ∃ t w0 ts,
             settle E (ClientConnect (attemptClient w) t)
               (trace (handshaking w t w0)) = inr tt ∧
             settle E (ClientListTools (attemptClient w))
               (trace (listing w t w0)) = inr ts ∧
             toolInfo (this (run E (connect E) w).1) = toToolInfo <$> ts
       | Some _ =>
           toolInfo (this (run E (connect E) w).1) = toolInfo (this w)
       end).
Proof.
  intros Hl.
  pose proof (run_disconnect E w) as Hsolo. rewrite Hl in Hsolo.
  destruct Hsolo as (w' & Hrun' & Hc' & _ & Hti' & _). rewrite Hrun'. cbn [fst].
  split; [exact Hti'|]. split; [exact Hc'|]. split.
  { intros toolName input w1 oc Hconn.
    rewrite (callTool_run E toolName input w w1 oc Hconn). unfold called.
    destruct oc as [c|]; [|done].
    destruct (settle E (ClientCallTool c toolName input) _) as [e|[r|]];
      [done| |done].
    cbn [fst]. unfold observed, rearmed.
    repeat case_match; done. }
  destruct (isConnected (this w)) eqn:Hc.
  { unfold connect. simpl. by rewrite Hl, Hc. }
  destruct (connect_attempt E w Hl Hc) as (w1 & f & Hatt & Hrun).
  exists w1, f. rewrite Hrun. cbn [fst]. split; [exact Hatt|].
  inversion Hatt as [? ? Ht|? ? ? Ht Hh|? ? ? Ht Hh Hls|? ? ? ? Ht Hh Hls Hb
                    |? ? ? ? Ht Hh Hls Hb]; subst;
    pose proof (createTransport_this E _ _ _ Ht) as Hthis.
  - split; [done|]. simpl. by rewrite Hthis.
  - split; [done|]. simpl. by rewrite Hthis.
  - split; [done|]. simpl. by rewrite Hthis.
  - split; [done|]. by eexists _, _, _.
  - split.
    + split; [|done]. intros _. unfold rearmed. repeat case_match; done.
    + eexists _, _, _. split; [exact Hh|]. split; [exact Hls|].
      unfold rearmed. repeat case_match; done.
Qed.

Lemma toolInfo_set_by_listing_witness :
  toolInfo (this (run Demo.healthy disconnect (Demo.connected Demo.healthy)).1)
    = [toToolInfo Demo.echo] ∧
  isConnected (this (run Demo.healthy disconnect (Demo.connected Demo.healthy)).1)
    = false.
Proof.
  destruct (toolInfo_set_by_listing Demo.healthy (Demo.connected Demo.healthy))
    as (Hti & Hc & _); [reflexivity|].
  split; [|exact Hc]. rewrite Hti. reflexivity.
Defined.

(** * Around the claims *)

(** ** A completed attempt *)

(** X1: a connect() whose attempt completes returns the handle it has
    just allocated; the manager is then connected with that handle, the
    stored error is cleared, toolInfo lists the tools the server
    reported, in the server's order, and the tool mapping is the one
    built from them, with an entry under every reported name. *)
Theorem connect_completed (E : Env) (w w1 : World) :
  isLocked (locker (this w)) = false →
  isConnected (this w) = false →
  attempt E w w1 None →
  ∃ w' t w0 ts wrappers,
    run E (connect E) w = (w', Returned (Some (attemptClient w))) ∧
    settle E (ClientListTools (attemptClient w)) (trace (listing w t w0)) = inr ts ∧
    buildTools E ts = inr wrappers ∧
    client (this w') = Some (attemptClient w) ∧
    info_status (getInfo (this w')) = connected ∧
    info_error (getInfo (this w')) = None ∧
    info_toolInfo (getInfo (this w')) = toToolInfo <$> ts ∧
    ti_name <$> toolInfo (this w') = tool_name <$> ts ∧
    tools (this w') = wrappers ∧
    (∀ d, d ∈ ts → is_Some (tools (this w') !! tool_name d)).
Proof.
  intros Hl Hc Hatt.
  rewrite (connect_run_attempt E w w1 None Hl Hc Hatt).
  inversion Hatt as [| | | |w0 t ts wrappers Ht Hh Hls Hb]; subst.
  destruct (buildTools_spec E ts wrappers Hb) as (_ & Hall).
  assert (Hfields :
    ∀ x, this (concluded (rearmed x) None) =
         set_locker (unlock (locker (this (rearmed x)))) (this (rearmed x)))
    by reflexivity.
  eexists _, t, w0, ts, wrappers.
  split; [|split; [exact Hls|split; [exact Hb|]]].
  - f_equal. unfold rearmed. repeat case_match; reflexivity.
  - unfold rearmed. repeat case_match; simpl; split_and!; try done;
      by rewrite <- list_fmap_compose.
Qed.

Lemma connect_completed_witness :
  ∃ w',
    run Demo.healthy (connect Demo.healthy) Demo.fresh
      = (w', Returned (Some Demo.handle)) ∧
    toolInfo (this w') = [toToolInfo Demo.echo] ∧
    is_Some (tools (this w') !! "echo").
Proof.
  destruct (connect_completed Demo.healthy Demo.fresh
              (rearmed (upd (set_tools (<["echo" :=
                 {| parameters :=
                      {| schema_properties := Some ∅;
                         schema_additionalProperties := Some false;
                         schema_rest := [("type", JStr "object")] |};
                    description := Some "echo the text";
                    target := "echo" |}]> ∅))
                 (upd (set_toolInfo (toToolInfo <$> [Demo.echo]))
                    (listing Demo.fresh (Demo.transport Demo.healthy)
                       (record (EvNewTransport (Demo.transport Demo.healthy))
                          (started Demo.fresh)))))))
    as (w' & t & w0 & ts & wrappers & Hrun & Hls & Hb & _ & _ & _ & Hti & _ & _ & Hall).
  - reflexivity.
  - reflexivity.
  - eapply attempt_complete; reflexivity.
  - exists w'. split; [exact Hrun|].
    assert (Hw' : w' = (run Demo.healthy (connect Demo.healthy) Demo.fresh).1)
      by (by rewrite Hrun).
    rewrite Hw'. split; [reflexivity|]. vm_compute. by eexists.
Defined.

(** ** A failure before the handshake is over *)

(** X2: a connect() whose attempt fails at transport construction or at
    the handshake returns the handle that was stored before the call --
    none on a manager that never got one -- and leaves the handle field,
    toolInfo and the tool mapping as they were. *)
Theorem connect_early_failure_keeps_old_handle (E : Env) (w w1 : World) stage e :
  isLocked (locker (this w)) = false →
  isConnected (this w) = false →
  attempt E w w1 (Some (stage, e)) →
  stage = TransportConstruction ∨ stage = Handshake →
  ∃ w',
    run E (connect E) w = (w', Returned (client (this w))) ∧
    client (this w') = client (this w) ∧
    toolInfo (this w') = toolInfo (this w) ∧
    tools (this w') = tools (this w) ∧
    error (this w') = Some e.
Proof.
  intros Hl Hc Hatt Hstage.
  rewrite (connect_run_attempt E w w1 _ Hl Hc Hatt).
  exists (concluded w1 (Some (stage, e))).
  inversion Hatt as [? ? Ht|? ? ? Ht Hh|? ? ? Ht Hh Hls|? ? ? ? Ht Hh Hls Hb|];
    subst; destruct Hstage; try discriminate;
    apply createTransport_this in Ht; simpl; rewrite Ht; done.
Qed.

Lemma connect_early_failure_keeps_old_handle_witness :
  ∃ w', run Demo.policy (connect Demo.policy) Demo.fresh = (w', Returned None) ∧
        client (this w') = None.
Proof.
  destruct (connect_early_failure_keeps_old_handle Demo.policy Demo.fresh
              (started Demo.fresh) TransportConstruction
              (Error "Stdio transport is not supported"))
    as (w' & Hrun & Hcl & _); try reflexivity.
  - by constructor.
  - by left.
  - exists w'. split; [exact Hrun|exact Hcl].
Defined.

(** ** Configurations that are refused *)

(** A connect() whose transport cannot even be chosen: nothing happens
    outside but the error being logged. *)
Lemma connect_refused (E : Env) (w : World) e :
  isLocked (locker (this w)) = false →
  isConnected (this w) = false →
  run E (createTransport E) (started w) = (started w, Raised e) →
  ∃ w',
    run E (connect E) w = (w', Returned (client (this w))) ∧
    error (this w') = Some e ∧
    info_status (getInfo (this w')) = disconnected ∧
    trace w' = trace w ++ [EvLog error_level [LErr e]] ∧
    clientCount w' = S (clientCount w).
Proof.
  intros Hl Hc Ht.
  assert (Hatt : attempt E w (started w) (Some (TransportConstruction, e)))
    by by constructor.
  rewrite (connect_run_attempt E w _ _ Hl Hc Hatt). by eexists.
Qed.

(** X3: a configuration that has neither the Stdio shape nor the Sse
    shape makes connect() fail with "Invalid server config": the error is
    stored, the manager stays disconnected, connect() returns the handle
    field as it was, and no transport is constructed and no request
    issued. *)
Theorem connect_invalid_config (E : Env) (w : World) :
  isLocked (locker (this w)) = false →
  isConnected (this w) = false →
  isMaybeStdioConfig E (serverConfig (this w)) = false →
  isMaybeSseConfig E (serverConfig (this w)) = false →
  ∃ w',
    run E (connect E) w = (w', Returned (client (this w))) ∧
    error (this w') = Some (Error "Invalid server config") ∧
    info_status (getInfo (this w')) = disconnected ∧
    trace w' = trace w ++ [EvLog error_level [LErr (Error "Invalid server config")]].
Proof.
  intros Hl Hc Hstdio Hsse.
  destruct (connect_refused E w (Error "Invalid server config") Hl Hc)
    as (w' & Hrun & He & Hst & Htr & _).
  { unfold createTransport. run_simpl. simpl. by rewrite Hstdio, Hsse. }
  by exists w'.
Qed.

Lemma connect_invalid_config_witness :
  ∃ w',
    run Demo.healthy (connect Demo.healthy) (Samples.manager Samples.shapeless None)
      = (w', Returned None) ∧
    error (this w') = Some (Error "Invalid server config").
Proof.
  destruct (connect_invalid_config Demo.healthy
              (Samples.manager Samples.shapeless None))
    as (w' & Hrun & He & _); try reflexivity.
  exists w'. split; [exact Hrun|exact He].
Defined.



(** ** The network transport *)

Lemma run_createTransport_sse (E : Env) w u :
  isMaybeStdioConfig E (serverConfig (this w)) = false →
  isMaybeSseConfig E (serverConfig (this w)) = true →
  url (serverConfig (this w)) = Some u →
  isValidUrl E u = true →
  run E (createTransport E) w =
    (record (EvNewTransport (SSEClientTransport u (headers (serverConfig (this w))))) w,
     match transportFails E (SSEClientTransport u (headers (serverConfig (this w)))) with
     | Some e => Raised e
     | None => Returned (SSEClientTransport u (headers (serverConfig (this w))))
     end).
Proof.
  intros Hstdio Hsse Hurl Hvalid.
  unfold createTransport, new_Transport, MCPSseConfigZodSchema_parse. run_simpl.
  rewrite Hstdio, Hsse, Hurl, Hvalid. simpl liftE. run_simpl.
  unfold emit at 1. cbn [run andThen sse_url sse_headers].
  by destruct (transportFails E _).
Qed.

(** X5: for a configuration of the Sse shape with a well-formed url,
    connect() constructs the network transport for that url with the
    configured headers -- whether or not the network-only policy is
    active -- and, unless the constructor throws, starts the handshake on
    it.  No subprocess transport is constructed. *)
Theorem connect_network_transport (E : Env) (w : World) u :
  isLocked (locker (this w)) = false →
  isConnected (this w) = false →
  isMaybeStdioConfig E (serverConfig (this w)) = false →
  isMaybeSseConfig E (serverConfig (this w)) = true →
  url (serverConfig (this w)) = Some u →
  isValidUrl E u = true →
  ∃ rest,
    trace (run E (connect E) w).1 =
      trace w ++
      EvNewTransport (SSEClientTransport u (headers (serverConfig (this w)))) :: rest ∧
    (transportFails E (SSEClientTransport u (headers (serverConfig (this w)))) = None →
     ∃ rest', rest =
       EvRequest (ClientConnect (attemptClient w)
                    (SSEClientTransport u (headers (serverConfig (this w))))) :: rest') ∧
    (∀ p, EvNewTransport (StdioClientTransport p) ∉ rest).
Proof.
  intros Hl Hc Hstdio Hsse Hurl Hvalid.
  pose proof (run_createTransport_sse E (started w) u Hstdio Hsse Hurl Hvalid) as Ht.
  change (serverConfig (this (started w))) with (serverConfig (this w)) in Ht.
  set (t := SSEClientTransport u (headers (serverConfig (this w)))) in *.
  destruct (connect_attempt E w Hl Hc) as (w1 & f & Hatt & Hrun).
  rewrite Hrun. cbn [fst].
  inversion Hatt as [? ? Ht'|? ? ? Ht'|? ? ? Ht'|? ? ? ? Ht'|? ? ? ? Ht'];
    subst; rewrite Ht in Ht';
    destruct (transportFails E t) eqn:Hf;
    simplify_eq; unfold rearmed;
    repeat case_match; simpl; rewrite <- ?app_assoc; simpl;
    eexists; (split; [reflexivity|]);
    (split; [intros; simplify_eq; eauto|]);
    intros p Hp; repeat (apply elem_of_cons in Hp as [Hp|Hp]; [discriminate|]);
    by apply elem_of_nil in Hp.
Qed.

Lemma connect_network_transport_witness :
  ∃ rest,
    trace (run Demo.policy (connect Demo.policy)
             (Samples.manager Samples.remote None)).1 =
      EvNewTransport
        (SSEClientTransport "https://mcp.example.com/sse"
           (Some {[ "Authorization" := "Bearer token" ]})) :: rest.
Proof.
  destruct (connect_network_transport Demo.policy
              (Samples.manager Samples.remote None) "https://mcp.example.com/sse")
    as (rest & Htr & _); try reflexivity.
  exists rest. exact Htr.
Defined.

(** ** The idle timer and connect() *)

(** X6: connect() arms the idle-disconnect scheduler exactly when its
    attempt completes and a non-zero delay is configured: the slot then
    holds the delay in milliseconds and the scheduler has been armed once
    more.  A failed attempt, and any attempt without a configured delay,
    leaves the scheduler as it was. *)
Theorem connect_arms_on_completion (E : Env) (w w1 : World) f :
  isLocked (locker (this w)) = false →
  isConnected (this w) = false →
  attempt E w w1 f →
  disconnectDebounce (this (run E (connect E) w).1) =
    match f, autoDisconnectSeconds (options (this w)) with
    | None, Some secs =>
        if decide (secs = 0) then disconnectDebounce (this w)
        else {| pending := Some (secs * 1000);
                armed := S (armed (disconnectDebounce (this w))) |}
    | _, _ => disconnectDebounce (this w)
    end.
Proof.
  intros Hl Hc Hatt.
  rewrite (connect_run_attempt E w w1 f Hl Hc Hatt). cbn [fst].
  inversion Hatt as [? ? Ht|? ? ? Ht Hh|? ? ? Ht Hh Hls|? ? ? ? Ht Hh Hls Hb
                    |? ? ? ? Ht Hh Hls Hb]; subst;
    apply createTransport_this in Ht; unfold rearmed; simpl; rewrite ?Ht; simpl;
    try done.
  destruct (autoDisconnectSeconds (options (this w))) as [secs|];
    simpl; rewrite ?Ht; [|done].
  destruct (decide (secs = 0)); simpl; by rewrite ?Ht.
Qed.

Lemma connect_arms_on_completion_witness :
  disconnectDebounce (this (run Demo.healthy (connect Demo.healthy) Demo.fresh).1)
    = {| pending := Some 30000; armed := 1 |} ∧
  disconnectDebounce (this (run Demo.mute (connect Demo.mute) Demo.fresh).1)
    = createDebounce.
Proof.
  split.
  - rewrite (connect_arms_on_completion Demo.healthy Demo.fresh
               (rearmed (upd (set_tools (tools (this (Demo.connected Demo.healthy))))
                  (upd (set_toolInfo (toToolInfo <$> [Demo.echo]))
                     (listing Demo.fresh (Demo.transport Demo.healthy)
                        (record (EvNewTransport (Demo.transport Demo.healthy))
                           (started Demo.fresh)))))) None);
      [reflexivity|reflexivity|reflexivity|].
    eapply attempt_complete; reflexivity.
  - rewrite (connect_arms_on_completion Demo.mute Demo.fresh
               (listing Demo.fresh (Demo.transport Demo.mute)
                  (record (EvNewTransport (Demo.transport Demo.mute))
                     (started Demo.fresh)))
               (Some (ToolListing, Demo.refused)));
      [reflexivity|reflexivity|reflexivity|].
    eapply attempt_listing; reflexivity.
Defined.

(** ** The tool mapping *)

Section Mapping.

Variable E : Env.

Lemma addTool_lookup acc d wrappers key :
  addTool E (inr acc) d = inr wrappers →
  wrappers !! key =
    if decide (tool_name d = key)
    then match makeTool E d with inr wrapper => Some wrapper | inl _ => None end
    else acc !! key.
Proof.
  unfold addTool. destruct (makeTool E d) as [e|wrapper]; [done|].
  intros [= <-]. destruct (decide (tool_name d = key)) as [<-|Hne].
  - by rewrite lookup_insert_eq.
  - by rewrite lookup_insert_ne.
Qed.

Lemma foldl_addTool_snoc_inr ts d acc wrappers :
  foldl (addTool E) (inr acc) (ts ++ [d]) = inr wrappers →
  ∃ before, foldl (addTool E) (inr acc) ts = inr before ∧
            addTool E (inr before) d = inr wrappers.
Proof.
  rewrite foldl_snoc.
  destruct (foldl (addTool E) (inr acc) ts) as [e|before]; [done|].
  intros H. by exists before.
Qed.

(** Every entry of the mapping was built from a reported tool of that
    name. *)
Lemma buildTools_origin ts : ∀ wrappers key wrapper,
  buildTools E ts = inr wrappers →
  wrappers !! key = Some wrapper →
  ∃ d, d ∈ ts ∧ tool_name d = key ∧ makeTool E d = inr wrapper.
Proof.
  unfold buildTools.
  induction ts as [|d ts IH] using rev_ind; intros wrappers key wrapper Hb Hw.
  - simpl in Hb. injection Hb as <-. by rewrite lookup_empty in Hw.
  - apply foldl_addTool_snoc_inr in Hb as (before & Hbefore & Hadd).
    rewrite (addTool_lookup _ _ _ key Hadd) in Hw.
    destruct (decide (tool_name d = key)) as [Hk|Hk].
    + exists d. split; [apply elem_of_app; right; by left|]. split; [done|].
      destruct (makeTool E d); by simplify_eq.
    + destruct (IH _ _ _ Hbefore Hw) as (d' & Hin & Hn & Hmk).
      exists d'. split; [apply elem_of_app; by left|done].
Qed.

Lemma makeTool_fails d e : makeTool E d = inl e ↔ wrapperFails E d = Some e.
Proof.
  unfold makeTool. destruct (wrapperFails E d); split; intros; by simplify_eq.
Qed.

Lemma foldl_addTool_inl ts : ∀ acc e,
  foldl (addTool E) (inr acc) ts = inl e ↔
  ∃ pre d post,
    ts = pre ++ d :: post ∧
    Forall (λ d', wrapperFails E d' = None) pre ∧
    wrapperFails E d = Some e.
Proof.
  induction ts as [|d ts IH]; intros acc e; simpl.
  - split; [done|]. intros (pre & d & post & Heq & _). by destruct pre.
  - destruct (makeTool E d) as [e'|wrapper] eqn:Hmk.
    + rewrite foldl_addTool_failed. apply makeTool_fails in Hmk. split.
      * intros [= <-]. exists [], d, ts. by split_and!.
      * intros (pre & d' & post & Heq & Hpre & Hd').
        destruct pre as [|d0 pre]; simpl in Heq; injection Heq as <- ->.
        -- congruence.
        -- apply Forall_cons in Hpre as [Hd0 _]. congruence.
    + assert (Hok : wrapperFails E d = None).
      { unfold makeTool in Hmk. by destruct (wrapperFails E d). }
      rewrite IH. split.
      * intros (pre & d' & post & -> & Hpre & Hd').
        exists (d :: pre), d', post. split_and!; [done| |done].
        by apply Forall_cons.
      * intros (pre & d' & post & Heq & Hpre & Hd').
        destruct pre as [|d0 pre]; simpl in Heq; injection Heq as <- ->.
        -- congruence.
        -- apply Forall_cons in Hpre as [_ Hpre]. by exists pre, d', post.
Qed.

(** X7: in the tool mapping built from the reported tools, the entry
    under a name is the wrapper of the last reported tool of that name
    (a later tool replaces an earlier one of the same name), and there is
    no entry under a name that no tool has. *)
Theorem buildTools_last_wins ts wrappers key :
  buildTools E ts = inr wrappers →
  wrappers !! key =
    match last (filter (λ d, tool_name d = key) ts) with
    | Some d => match makeTool E d with
                | inr wrapper => Some wrapper
                | inl _ => None
                end
    | None => None
    end.
Proof.
  unfold buildTools. revert wrappers.
  induction ts as [|d ts IH] using rev_ind; intros wrappers Hb.
  - simpl in Hb. simplify_eq. by rewrite lookup_empty.
  - apply foldl_addTool_snoc_inr in Hb as (before & Hbefore & Hadd).
    rewrite (addTool_lookup _ _ _ key Hadd), filter_app.
    destruct (decide (tool_name d = key)) as [Hk|Hk].
    + rewrite filter_cons_True, filter_nil, last_snoc by done. done.
    + rewrite filter_cons_False, filter_nil, app_nil_r by done. by apply IH.
Qed.

(** X8: every wrapper of the tool mapping was built from a reported
    tool of the name it is stored under: it calls that name, carries the
    tool's description, and declares the tool's input schema with
    additional properties disallowed and the properties present -- the
    tool's own, or none when the tool declares none. *)
Theorem buildTools_wrapper_schema ts wrappers key wrapper :
  buildTools E ts = inr wrappers →
  wrappers !! key = Some wrapper →
  ∃ d,
    d ∈ ts ∧ tool_name d = key ∧
    target wrapper = key ∧
    description wrapper = tool_description d ∧
    schema_additionalProperties (parameters wrapper) = Some false ∧
    schema_properties (parameters wrapper)
      = Some (default ∅ (schema_properties (tool_inputSchema d))) ∧
    schema_rest (parameters wrapper) = schema_rest (tool_inputSchema d).
Proof.
  intros Hb Hw.
  destruct (buildTools_origin ts wrappers key wrapper Hb Hw) as (d & Hin & Hn & Hmk).
  exists d. split; [exact Hin|]. split; [exact Hn|].
  unfold makeTool in Hmk. destruct (wrapperFails E d); [done|].
  injection Hmk as <-. simpl. by rewrite Hn.
Qed.

(** X9: building the tool mapping fails exactly when the wrapper of
    some reported tool cannot be built, and the error is that of the
    first such tool in the server's order. *)
Theorem buildTools_first_failure ts e :
  buildTools E ts = inl e ↔
  ∃ pre d post,
    ts = pre ++ d :: post ∧
    Forall (λ d', wrapperFails E d' = None) pre ∧
    wrapperFails E d = Some e.
Proof. unfold buildTools. apply foldl_addTool_inl. Qed.


End Mapping.

Lemma buildTools_last_wins_witness :
  ∃ wrappers,
    buildTools Demo.healthy [Demo.echo; Samples.twin] = inr wrappers ∧
    description <$> wrappers !! "echo" = Some (Some "the second echo") ∧
    wrappers !! "other" = None.
Proof.
  destruct (buildTools Demo.healthy [Demo.echo; Samples.twin])
    as [e|wrappers] eqn:Hb; [by vm_compute in Hb|].
  exists wrappers. split; [first [exact Hb|reflexivity]|].
  split.
  - rewrite (buildTools_last_wins Demo.healthy [Demo.echo; Samples.twin]
               wrappers "echo" Hb). reflexivity.
  - rewrite (buildTools_last_wins Demo.healthy [Demo.echo; Samples.twin]
               wrappers "other" Hb). reflexivity.
Defined.

Lemma buildTools_wrapper_schema_witness :
  ∃ wrappers wrapper,
    buildTools Demo.healthy [Demo.echo; Samples.twin] = inr wrappers ∧
    wrappers !! "echo" = Some wrapper ∧
    schema_additionalProperties (parameters wrapper) = Some false ∧
    is_Some (schema_properties (parameters wrapper)).
Proof.
  destruct (buildTools Demo.healthy [Demo.echo; Samples.twin])
    as [e|wrappers] eqn:Hb; [by vm_compute in Hb|].
  destruct (wrappers !! "echo") as [wrapper|] eqn:Hw;
    [|injection Hb as <-; by vm_compute in Hw].
  destruct (buildTools_wrapper_schema Demo.healthy [Demo.echo; Samples.twin]
              wrappers "echo" wrapper Hb Hw)
    as (d & _ & _ & _ & _ & Hadd & Hprops & _).
  exists wrappers, wrapper.
  split; [first [exact Hb|reflexivity]|]. split; [first [exact Hw|reflexivity]|].
  split; [exact Hadd|]. rewrite Hprops. by eexists.
Defined.

(** ** callTool on its own *)

Lemma handshakes_snoc tr ev :
  handshakes (tr ++ [ev]) =
    (handshakes tr + match ev with
                     | EvRequest (ClientConnect _ _) => 1
                     | _ => 0
                     end)%nat.
Proof.
  induction tr as [|ev' tr IH]; simpl.
  - destruct ev as [|[]|]; reflexivity.
  - destruct ev' as [|[]|]; simpl; by rewrite IH.
Qed.

(** connect(), alone with the lock free, returns, with the lock free
    and the scheduler touched only by a completed attempt. *)
Lemma connect_returns (E : Env) w :
  isLocked (locker (this w)) = false →
  ∃ w1 oc,
    run E (connect E) w = (w1, Returned oc) ∧
    isLocked (locker (this w1)) = false ∧
    options (this w1) = options (this w) ∧
    (autoDisconnectSeconds (options (this w)) = None ∨
     autoDisconnectSeconds (options (this w)) = Some 0 →
     disconnectDebounce (this w1) = disconnectDebounce (this w)).
Proof.
  intros Hl. destruct (isConnected (this w)) eqn:Hc.
  { exists w, (client (this w)). split; [|done].
    unfold connect. simpl. by rewrite Hl, Hc. }
  destruct (connect_attempt E w Hl Hc) as (w1 & f & Hatt & Hrun).
  exists (concluded w1 f), (client (this (concluded w1 f))).
  split; [exact Hrun|].
  pose proof (attempt_options E w w1 f Hatt) as Hopt.
  split; [by destruct f as [[]|]|]. split; [by destruct f as [[]|]|].
  intros Hnone.
  inversion Hatt as [? ? Ht|? ? ? Ht Hh|? ? ? Ht Hh Hls|? ? ? ? Ht Hh Hls Hb
                    |? ? ? ? Ht Hh Hls Hb]; subst;
    apply createTransport_this in Ht; unfold rearmed; simpl; rewrite ?Ht; simpl;
    try done.
  destruct Hnone as [->| ->]; simpl; by rewrite ?Ht.
Qed.

(** X10: alone on a manager whose lock is free, callTool always
    returns a result (it is never left suspended and never returns
    null), and it leaves the lock free: a snapshot taken afterwards is
    not loading. *)
Theorem callTool_returns (E : Env) toolName input (w : World) :
  isLocked (locker (this w)) = false →
  ∃ w2 r,
    run E (callTool E toolName input) w = (w2, Returned (Some r)) ∧
    isLocked (locker (this w2)) = false ∧
    info_status (getInfo (this w2)) ≠ loading.
Proof.
  intros Hl.
  destruct (connect_returns E (logged toolName w) Hl) as (w1 & oc & Hconn & Hl1 & _).
  rewrite (callTool_run E toolName input w w1 oc Hconn). unfold called.
  assert (Hstatus : ∀ x, isLocked (locker (this x)) = false →
                         info_status (getInfo (this x)) ≠ loading).
  { intros x Hx. unfold getInfo. simpl. rewrite Hx. by destruct (isConnected (this x)). }
  destruct oc as [c|]; [|eexists _, _; split; [reflexivity|]; split; [|apply Hstatus]; done].
  destruct (settle E (ClientCallTool c toolName input) _) as [e|[r|]];
    eexists _, _; (split; [reflexivity|]);
    (split; [|apply Hstatus]); unfold observed, rearmed;
    repeat case_match; done.
Qed.

Lemma callTool_returns_witness :
  ∃ w2 r,
    run Demo.broken (callTool Demo.broken "echo" Demo.text) Demo.fresh
      = (w2, Returned (Some r)) ∧
    isLocked (locker (this w2)) = false.
Proof.
  destruct (callTool_returns Demo.broken "echo" Demo.text Demo.fresh)
    as (w2 & r & Hrun & Hl & _); [reflexivity|].
  exists w2, r. split; [exact Hrun|exact Hl].
Defined.

(** X11: on a connected manager that holds a handle, callTool does not
    connect again: it logs the call and issues exactly one request, the
    tool call on the stored handle; no transport is constructed and no
    handshake started.  An error is logged afterwards exactly when the
    result it returns has isError set.  The manager stays connected with
    the same handle. *)
Theorem callTool_reuses_handle (E : Env) toolName input (w : World) c :
  isLocked (locker (this w)) = false →
  isConnected (this w) = true →
  client (this w) = Some c →
  ∃ w2 r tail,
    run E (callTool E toolName input) w = (w2, Returned (Some r)) ∧
    trace w2 =
      trace w ++
      EvLog info [LStr "tool call"; LStr toolName] ::
      EvRequest (ClientCallTool c toolName input) :: tail ∧
    (tail = [] ∧ isError r ≠ Some true ∨
     (∃ msg, tail = [EvLog error_level msg]) ∧ isError r = Some true) ∧
    handshakes (trace w2) = handshakes (trace w) ∧
    client (this w2) = Some c ∧
    isConnected (this w2) = true.
Proof.
  intros Hl Hc Hcl.
  assert (Hconn : run E (connect E) (logged toolName w)
                  = (logged toolName w, Returned (Some c))).
  { unfold connect. simpl. by rewrite Hl, Hc, Hcl. }
  rewrite (callTool_run E toolName input w _ _ Hconn). unfold called.
  assert (Hre : ∀ x, trace (rearmed x) = trace x ∧
                     client (this (rearmed x)) = client (this x) ∧
                     isConnected (this (rearmed x)) = isConnected (this x)).
  { intros x. unfold rearmed. repeat case_match; done. }
  destruct (settle E (ClientCallTool c toolName input) _) as [e|[r|]].
  - eexists _, _, [_]. split; [reflexivity|]. simpl.
    rewrite <- !app_assoc. split; [reflexivity|].
    split; [right; split; [by eexists|done]|].
    rewrite !app_assoc, !handshakes_snoc. split; [lia|done].
  - destruct (Hre (calling c toolName input (logged toolName w)))
      as (Htr & Hcl' & Hc').
    destruct r as [cs [[]|]]; unfold observed; cbn [isError content].
    + eexists _, _, [_]. split; [reflexivity|]. simpl. rewrite Htr, Hcl', Hc'. simpl.
      rewrite <- !app_assoc. split; [reflexivity|].
      split; [right; split; [by eexists|done]|].
      rewrite !app_assoc, !handshakes_snoc. split; [lia|done].
    + eexists _, _, []. split; [reflexivity|]. rewrite Htr, Hcl', Hc'. simpl.
      rewrite <- !app_assoc. split; [reflexivity|]. split; [by left|].
      rewrite !app_assoc, !handshakes_snoc. split; [lia|done].
    + eexists _, _, []. split; [reflexivity|]. rewrite Htr, Hcl', Hc'. simpl.
      rewrite <- !app_assoc. split; [reflexivity|]. split; [by left|].
      rewrite !app_assoc, !handshakes_snoc. split; [lia|done].
  - eexists _, _, [_]. split; [reflexivity|]. simpl.
    rewrite <- !app_assoc. split; [reflexivity|].
    split; [right; split; [by eexists|done]|].
    rewrite !app_assoc, !handshakes_snoc. split; [lia|done].
Qed.

Lemma callTool_reuses_handle_witness :
  ∃ w2 tail,
    run Demo.healthy (callTool Demo.healthy "echo" Demo.text)
      (Demo.connected Demo.healthy) = (w2, Returned (Some Demo.hi)) ∧
    trace w2 =
      trace (Demo.connected Demo.healthy) ++
      EvLog info [LStr "tool call"; LStr "echo"] ::
      EvRequest (ClientCallTool Demo.handle "echo" Demo.text) :: tail ∧
    handshakes (trace w2) = 1%nat.
Proof.
  destruct (callTool_reuses_handle Demo.healthy "echo" Demo.text
              (Demo.connected Demo.healthy) Demo.handle)
    as (w2 & r & tail & Hrun & Htr & _ & Hh & _); try reflexivity.
  assert (Hr : r = Demo.hi).
  { assert (H : (run Demo.healthy (callTool Demo.healthy "echo" Demo.text)
                   (Demo.connected Demo.healthy)).2 = Returned (Some Demo.hi))
      by reflexivity.
    rewrite Hrun in H. by injection H. }
  subst r. exists w2, tail. split; [exact Hrun|]. split; [exact Htr|].
  rewrite Hh. reflexivity.
Defined.

(** X12: on a manager with no idle timeout configured, or a timeout
    of zero, neither connect() nor callTool ever arms the idle-disconnect
    scheduler, whatever their outcome. *)
Theorem no_delay_never_arms (E : Env) toolName input (w : World) :
  isLocked (locker (this w)) = false →
  autoDisconnectSeconds (options (this w)) = None ∨
  autoDisconnectSeconds (options (this w)) = Some 0 →
  disconnectDebounce (this (run E (connect E) w).1) = disconnectDebounce (this w) ∧
  disconnectDebounce (this (run E (callTool E toolName input) w).1)
    = disconnectDebounce (this w).
Proof.
  intros Hl Hnone. split.
  - destruct (connect_returns E w Hl) as (w1 & oc & -> & _ & _ & Hd). by apply Hd.
  - destruct (connect_returns E (logged toolName w) Hl)
      as (w1 & oc & Hconn & _ & Hopt & Hd).
    rewrite (callTool_run E toolName input w w1 oc Hconn). unfold called.
    specialize (Hd Hnone). simpl in Hopt, Hd.
    destruct oc as [c|]; [|done].
    destruct (settle E (ClientCallTool c toolName input) _) as [e|[r|]];
      [done| |done].
    cbn [fst]. unfold observed, rearmed. simpl. rewrite Hopt.
    destruct Hnone as [->| ->]; simpl; repeat case_match; done.
Qed.

Lemma no_delay_never_arms_witness :
  disconnectDebounce
    (this (run Demo.healthy (callTool Demo.healthy "echo" Demo.text)
             (Samples.manager Demo.playwright (Some 0))).1) = createDebounce.
Proof.
  destruct (no_delay_never_arms Demo.healthy "echo" Demo.text
              (Samples.manager Demo.playwright (Some 0))) as (_ & H);
    [reflexivity|by right|].
  rewrite H. reflexivity.
Defined.

(** ** What a tool wrapper can throw *)

(** X13: the only exception that escapes the execute of a tool wrapper
    is the reason of a signal that was already aborted when it was
    called; whatever happens to the call itself, it returns a result that
    is not null. *)
Theorem execute_throws_only_abort (E : Env) wrapper params opts :
  ends is_Some
    (λ e, ∃ signal, opts ≫= abortSignal = Some signal ∧
                    aborted signal = true ∧ e = reason signal)
    (execute E wrapper params opts).
Proof.
  unfold execute.
  destruct (opts ≫= abortSignal) as [signal|] eqn:Hs.
  - destruct (aborted signal) eqn:Ha.
    + simpl. by exists signal.
    + eapply ends_weaken; [| |apply callTool_ends]; done.
  - eapply ends_weaken; [| |apply callTool_ends]; done.
Qed.

(** ** disconnect(), again and again *)

Lemma run_release_world (E : Env) w :
  run E release w = (released E w, Returned tt).
Proof.
  unfold release, released. run_simpl. cbn [upd this].
  change (client (set_isConnected false (this w))) with (client (this w)).
  destruct (client (this w)) as [c|]; [|reflexivity].
  run_simpl. cbn [record trace upd].
  by destruct (settle E (ClientClose c) _) as [e|[]].
Qed.

Lemma run_disconnect_world (E : Env) w :
  isLocked (locker (this w)) = false →
  run E disconnect w = (released E (leaving w), Returned tt).
Proof.
  intros Hl. unfold disconnect. rewrite run_bind, run_log. cbn [andThen].
  rewrite run_bind, run_locker_wait. cbn [record this]. rewrite Hl. cbn [andThen].
  apply run_release_world.
Qed.

Lemma released_this (E : Env) w :
  this (released E w) = set_client None (set_isConnected false (this w)).
Proof.
  unfold released. destruct (client (this w)) as [c|]; [|reflexivity].
  by destruct (settle E (ClientClose c) _).
Qed.

Lemma released_idle (E : Env) x :
  client (this x) = None → isConnected (this x) = false → released E x = x.
Proof.
  destruct x as [[cl er ic lk ti tl nm cfg op db] tr n]. simpl.
  intros -> ->. reflexivity.
Qed.

(** X14: disconnect() on a manager that has just been disconnected
    does nothing but log: it issues no second close request and leaves
    every field of the manager as it is. *)
Theorem disconnect_twice (E : Env) (w : World) :
  isLocked (locker (this w)) = false →
  run E disconnect (run E disconnect w).1 =
    (leaving (run E disconnect w).1, Returned tt) ∧
  this (run E disconnect (run E disconnect w).1).1 = this (run E disconnect w).1.
Proof.
  intros Hl. rewrite (run_disconnect_world E w Hl). cbn [fst].
  assert (Hl' : isLocked (locker (this (released E (leaving w)))) = false)
    by by rewrite released_this.
  rewrite (run_disconnect_world E _ Hl'). cbn [fst].
  rewrite (released_idle E (leaving (released E (leaving w))))
    by (cbn [leaving record this]; by rewrite released_this).
  done.
Qed.

Lemma disconnect_twice_witness :
  trace (run Demo.healthy disconnect
           (run Demo.healthy disconnect (Demo.connected Demo.healthy)).1).1
  = trace (run Demo.healthy disconnect (Demo.connected Demo.healthy)).1
    ++ [EvLog info [LStr "Disconnecting from MCP server"]].
Proof.
  destruct (disconnect_twice Demo.healthy (Demo.connected Demo.healthy))
    as (Hrun & _); [reflexivity|].
  rewrite Hrun. reflexivity.
Defined.

(** X15: after a disconnect(), the next connect() never returns early:
    it takes the lock and makes a new attempt with a newly allocated
    handle, whatever state the manager was in before the disconnect().
    When that attempt gets through the handshake, the handle connect()
    returns is the new one. *)
Theorem connect_after_disconnect (E : Env) (w : World) :
  isLocked (locker (this w)) = false →
  ∃ w1 f,
    attempt E (run E disconnect w).1 w1 f ∧
    run E (connect E) (run E disconnect w).1 =
      (concluded w1 f, Returned (client (this (concluded w1 f)))) ∧
    client_id (attemptClient (run E disconnect w).1) = clientCount w ∧
    match f with
    | Some (TransportConstruction, _) | Some (Handshake, _) =>
        client (this (concluded w1 f)) = None
    | _ =>
        client (this (concluded w1 f)) = Some (attemptClient (run E disconnect w).1)
    end.
Proof.
  intros Hl. rewrite (run_disconnect_world E w Hl). cbn [fst].
  assert (Hthis := released_this E (leaving w)).
  assert (Hl' : isLocked (locker (this (released E (leaving w)))) = false)
    by by rewrite Hthis.
  assert (Hc' : isConnected (this (released E (leaving w))) = false)
    by by rewrite Hthis.
  destruct (connect_attempt E _ Hl' Hc') as (w1 & f & Hatt & Hrun).
  exists w1, f. split; [exact Hatt|]. split; [exact Hrun|]. split.
  { unfold released. cbn [leaving record this]. repeat case_match; done. }
  inversion Hatt as [? ? Ht|? ? ? Ht Hh|? ? ? Ht Hh Hls|? ? ? ? Ht Hh Hls Hb
                    |? ? ? ? Ht Hh Hls Hb]; subst;
    apply createTransport_this in Ht; unfold rearmed; simpl; rewrite ?Ht;
    repeat case_match; simpl; rewrite ?Ht; simpl; by rewrite ?Hthis.
Qed.

Lemma connect_after_disconnect_witness :
  (run Demo.healthy (connect Demo.healthy)
     (run Demo.healthy disconnect (Demo.connected Demo.healthy)).1).2
  = Returned (Some {| client_id := 1; client_name := "playwright";
                      client_version := "1.0.0" |}).
Proof.
  destruct (connect_after_disconnect Demo.healthy (Demo.connected Demo.healthy))
    as (w1 & f & _ & Hrun & _); [reflexivity|].
  rewrite Hrun. cbn [snd].
  assert (H : (run Demo.healthy (connect Demo.healthy)
                 (run Demo.healthy disconnect (Demo.connected Demo.healthy)).1).2
              = Returned (Some {| client_id := 1; client_name := "playwright";
                                  client_version := "1.0.0" |})) by reflexivity.
  rewrite Hrun in H. exact H.
Defined.

(** ** A snapshot taken during an attempt *)

(** X16: while a connect() attempt is in flight the snapshot says
    loading: in a race of a connect() with a disconnect() called
    meanwhile, under every schedule, either connect() has returned or
    getInfo() reports the status loading. *)
Theorem loading_while_connecting (E : Env) (w : World) (schedule : list Turn) :
  isLocked (locker (this w)) = false →
  isConnected (this w) = false →
  (∃ v, connecting (race E schedule (bothCalled E w)) = Ret v) ∨
  info_status (getInfo (this (world (race E schedule (bothCalled E w))))) = loading.
Proof.
  intros Hl Hc.
  pose proof (racing_race E schedule _ (racing_bothCalled E w Hl Hc)) as Hr.
  destruct Hr as [Hq Hk Hp|v Hq Hu Hp|v Hp Hc' Hcl Hq].
  - right. unfold getInfo. simpl. by rewrite Hk.
  - left. by exists v.
  - left. by exists v.
Qed.

Lemma loading_while_connecting_witness :
  info_status
    (getInfo (this (world (race Demo.healthy [DisconnectTurn; ConnectTurn]
                             (bothCalled Demo.healthy Demo.fresh))))) = loading.
Proof.
  destruct (loading_while_connecting Demo.healthy Demo.fresh
              [DisconnectTurn; ConnectTurn]) as [(v & Hv)|H];
    [reflexivity|reflexivity| |exact H].
  by vm_compute in Hv.
Defined.

(** ** Two callers of connect() *)

Section Contest.

Variable E : Env.

(** From its call on, an attempt that has started its handshake starts
    no other, holds the lock while it is suspended, and returns the
    handle field. *)
Lemma connect_attempting w :
  isLocked (locker (this w)) = false →
  isConnected (this w) = false →
  isLocked (locker (this (segment (connect E) w).1)) = true →
  handshakes (trace (segment (connect E) w).1) = S (handshakes (trace w)) ∧
  attempting (S (handshakes (trace w))) (segment (connect E) w).2.
Proof.
  intros Hl Hc.
  assert (Hrest : ∀ n (c : Client) (t : Transport) (w0 : World),
    attempting n (segment
      (try_catch
         (await (ClientConnect c t);;
          log info [LStr "Connected to MCP server"];;
          modify (set_isConnected true);;
          modify (set_error None);;
          modify (set_client (Some c));;
          toolResponse ← await (ClientListTools c);
          modify (set_toolInfo (toToolInfo <$> toolResponse));;
          wrappers ← liftE (buildTools E toolResponse);
          modify (set_tools wrappers);;
          scheduleAutoDisconnect) connect_catch;;
       modify (λ m, set_locker (unlock (locker m)) m);;
       gets client) w0).2).
  { intros n c t w0. cbn. constructor; [done|].
    intros [e|[]] w' Hw' Hn; cbn.
    { left. rewrite handshakes_snoc. simpl. split_and!; [done|lia|done]. }
    right. rewrite Hw', !handshakes_snoc. simpl.
    split; [done|]. split; [lia|]. constructor; [done|].
    intros [e|ts] w'' Hw'' Hn'; cbn.
    { left. rewrite handshakes_snoc. simpl. split_and!; [done|lia|done]. }
    destruct (buildTools E ts); cbn.
    { left. rewrite handshakes_snoc. simpl. split_and!; [done|lia|done]. }
    destruct (autoDisconnectSeconds _) as [secs|]; cbn; [|left; by split_and!].
    destruct (decide (secs = 0)); cbn; left; by split_and!. }
  unfold connect, connect_try, createTransport, new_Transport. cbn.
  rewrite Hl, Hc. cbn.
  destruct (isMaybeStdioConfig E _);
    [destruct (IS_MCP_SERVER_SSE_ONLY E)|destruct (isMaybeSseConfig E _)]; cbn;
    try done.
  - destruct (MCPStdioConfigZodSchema_parse _); cbn; [done|].
    destruct (transportFails E _); cbn; [done|]. intros _.
    rewrite !handshakes_snoc. simpl. split; [lia|].
    exact (Hrest _ _ _ (started w)).
  - destruct (MCPSseConfigZodSchema_parse _ _); cbn; [done|].
    destruct (transportFails E _); cbn; [done|]. intros _.
    rewrite !handshakes_snoc. simpl. split; [lia|].
    exact (Hrest _ _ _ (started w)).
Qed.

(** With the lock held, connect() only waits. *)
Lemma segment_connect_waits x :
  isLocked (locker (this x)) = true →
  segment (connect E) x = (x, Await LockerWait (λ _, gets client)).
Proof. intros Hx. unfold connect. cbn. by rewrite Hx. Qed.

Lemma contending_calledTwice w :
  isLocked (locker (this w)) = false →
  isConnected (this w) = false →
  isLocked (locker (this (segment (connect E) w).1)) = true →
  contending (S (handshakes (trace w))) (calledTwice E w).
Proof.
  intros Hl Hc Hflight.
  destruct (connect_attempting w Hl Hc Hflight) as (Hn & Hatt).
  pose proof (segment_connect_waits _ Hflight) as Hsecond.
  apply contending_attempt; unfold calledTwice; rewrite Hsecond; done.
Qed.

Lemma contending_advance n r t : contending n r → contending n (advance E r t).
Proof.
  destruct r as [w p q].
  intros [Hq Hk Hn Hp|Hq Hu Hn Hp|Hp Hq Hu Hn]; simpl in *; subst.
  - destruct t; simpl; [|rewrite Hk; by apply contending_attempt].
    destruct Hp as [a k Ha Hstep]. simpl.
    assert (Hb : blocked a w = false) by by destruct a.
    rewrite Hb.
    specialize (Hstep (respond E a (trace w)) w Hk eq_refl).
    destruct (segment (k (respond E a (trace w))) w) as [w' p'] eqn:Hs.
    destruct Hstep as [(Hu & Hn' & Hv)|(Hk' & Hn' & Hh)]; simpl in *.
    + by apply contending_returned.
    + by apply contending_attempt.
  - destruct t; simpl; [by apply contending_returned|].
    rewrite Hu. cbn. by apply contending_both.
  - destruct t; simpl; by apply contending_both.
Qed.

Lemma contending_contest n schedule : ∀ r,
  contending n r → contending n (contest E schedule r).
Proof.
  induction schedule as [|t schedule IH]; intros r Hr; simpl; [done|].
  apply IH. by apply contending_advance.
Qed.

(** X17: when connect() is called while an earlier connect() is in
    flight, then under every schedule of the two exactly one handshake
    has been started (the first caller's), neither call throws, and once
    both have returned they have returned the same handle, the one in
    the handle field. *)
Theorem concurrent_connect_single_handshake (w : World) (schedule : list Caller) :
  isLocked (locker (this w)) = false →
  isConnected (this w) = false →
  isLocked (locker (this (segment (connect E) w).1)) = true →
  handshakes (trace (arena (contest E schedule (calledTwice E w))))
    = S (handshakes (trace w)) ∧
  (∀ e, first (contest E schedule (calledTwice E w)) ≠ Throw e ∧
        second (contest E schedule (calledTwice E w)) ≠ Throw e) ∧
  (∀ v1 v2,
     first (contest E schedule (calledTwice E w)) = Ret v1 →
     second (contest E schedule (calledTwice E w)) = Ret v2 →
     v1 = v2 ∧
     v1 = client (this (arena (contest E schedule (calledTwice E w))))).
Proof.
  intros Hl Hc Hflight.
  pose proof (contending_contest _ schedule _
                (contending_calledTwice w Hl Hc Hflight)) as Hr.
  destruct Hr as [Hq Hk Hn Hp|Hq Hu Hn Hp|Hp Hq Hu Hn].
  - split; [exact Hn|]. rewrite Hq. split.
    + intros e. split; [by destruct Hp|done].
    + intros v1 v2 _ Hv2. discriminate.
  - split; [exact Hn|]. rewrite Hq, Hp. split; [done|].
    intros v1 v2 _ Hv2. discriminate.
  - split; [exact Hn|]. rewrite Hq, Hp. split; [done|].
    intros v1 v2 [= <-] [= <-]. done.
Qed.

End Contest.

Lemma concurrent_connect_single_handshake_witness :
  handshakes
    (trace (arena (contest Demo.healthy
                     [SecondCaller; FirstCaller; SecondCaller; FirstCaller;
                      SecondCaller]
                     (calledTwice Demo.healthy Demo.fresh)))) = 1%nat ∧
  second (contest Demo.healthy
            [SecondCaller; FirstCaller; SecondCaller; FirstCaller; SecondCaller]
            (calledTwice Demo.healthy Demo.fresh)) = Ret (Some Demo.handle).
Proof.
  destruct (concurrent_connect_single_handshake Demo.healthy Demo.fresh
              [SecondCaller; FirstCaller; SecondCaller; FirstCaller; SecondCaller])
    as (Hn & _ & Hsame); [reflexivity|reflexivity|reflexivity|].
  split; [exact Hn|].
  destruct (Hsame (Some Demo.handle) (Some Demo.handle)) as (_ & _);
    reflexivity.
Defined.

(** ** The script that writes the default configuration *)


(** ** The persisted part of the application store *)

Section Persist.

Context {ChatThread Project AppDefaultToolkit : Type}.
Variable DEFAULT_MODEL : string.

Abbreviation State := (AppStore.AppState ChatThread Project AppDefaultToolkit).
Abbreviation partialize := (AppStore.partialize DEFAULT_MODEL).

Lemma orString_idem a d : AppStore.orString (AppStore.orString a d) d = AppStore.orString a d.
Proof.
  unfold AppStore.orString.
  destruct (decide (a = "")) as [->|Ha].
  - by destruct (decide (d = "")).
  - by destruct (decide (a = "")).
Qed.

Lemma orDefined_idem {A} (a d : option A) :
  AppStore.orDefined (AppStore.orDefined a d) d = AppStore.orDefined a d.
Proof. destruct a, d; reflexivity. Qed.

(** X19: with a non-empty default model, the persisted snapshot of any
    state holds non-empty model names (an empty one is replaced by the
    default, any other is kept) and a defined toolkit list (a list that
    is set, even an empty one, is kept).  The snapshot is stable: a state
    that carries the values of a snapshot is persisted as that same
    snapshot. *)
Theorem partialize_stable (state state' : State) :
  DEFAULT_MODEL ≠ "" →
  AppStore.persisted_model (partialize state) ≠ "" ∧
  AppStore.persisted_temporaryModel (partialize state) ≠ "" ∧
  (AppStore.model state ≠ "" →
   AppStore.persisted_model (partialize state) = AppStore.model state) ∧
  (∀ toolkit, AppStore.allowedAppDefaultToolkit state = Some toolkit →
     AppStore.persisted_allowedAppDefaultToolkit (partialize state) = Some toolkit) ∧
  is_Some (AppStore.persisted_allowedAppDefaultToolkit (partialize state)) ∧
  (AppStore.model state' = AppStore.persisted_model (partialize state) →
   AppStore.temporaryModel state'
     = AppStore.persisted_temporaryModel (partialize state) →
   AppStore.toolChoice state' = AppStore.persisted_toolChoice (partialize state) →
   AppStore.allowedMcpServers state'
     = AppStore.persisted_allowedMcpServers (partialize state) →
   AppStore.allowedAppDefaultToolkit state'
     = AppStore.persisted_allowedAppDefaultToolkit (partialize state) →
   partialize state' = partialize state).
Proof.
  intros Hdef.
  assert (Hne : ∀ a, AppStore.orString a DEFAULT_MODEL ≠ "").
  { intros a. unfold AppStore.orString. by destruct (decide (a = "")). }
  split; [apply Hne|]. split; [apply Hne|]. split.
  { intros Hm. simpl. unfold AppStore.orString. by destruct (decide _). }
  split; [intros toolkit Hk; simpl; by rewrite Hk|]. split.
  { simpl. destruct (AppStore.allowedAppDefaultToolkit state); simpl; by eexists. }
  intros Hm Ht Hc Hs Hk. unfold AppStore.partialize.
  rewrite Hm, Ht, Hc, Hs, Hk. simpl.
  by rewrite !orString_idem, !orDefined_idem.
Qed.

End Persist.

Lemma partialize_stable_witness :
  AppStore.persisted_model
    (AppStore.partialize "gpt-4o"
       (AppStore.initialState (ChatThread := unit) (Project := unit)
          (AppDefaultToolkit := unit) "")) ≠ "".
Proof.
  destruct (partialize_stable "gpt-4o"
              (AppStore.initialState (ChatThread := unit) (Project := unit)
                 (AppDefaultToolkit := unit) "")
              (AppStore.initialState ""))
    as (Hne & _); [done|].
  exact Hne.
Defined.
